(** * vno: the parse / resolve / build pipeline of the single-file-component
      compiler, embedded from the [vno] object of the source.

    The development follows the source top-down: JavaScript strings and the
    regular expressions the code splits with, the [component] record, the
    methods of the [vno] object ([locate], [template], [script], [style],
    [imports], [instance], [build], [parse]) and then the properties. *)

From Stdlib Require Import String Ascii.
From Stdlib Require Import List NArith ZArith Lia Bool Relations Permutation.
Import ListNotations.

(** ** JavaScript strings

    A JavaScript string is a sequence of UTF-16 code units; the regular
    expressions of the source carry no [u] flag, so they work on code units
    too. *)

Definition code_unit := N.
Definition jsstring := list code_unit.

Fixpoint lit (s : string) : jsstring :=
  match s with
  | EmptyString => []
  | String a s' => N_of_ascii a :: lit s'
  end.
Arguments lit s%_string.

Fixpoint str_eqb (a b : jsstring) : bool :=
  match a, b with
  | [], [] => true
  | x :: a', y :: b' => N.eqb x y && str_eqb a' b'
  | _, _ => false
  end.

(** A value that is a string or [undefined]. *)
Definition jsvalue := option jsstring.

(** String conversion inside a template literal. *)
Definition to_str (v : jsvalue) : jsstring :=
  match v with
  | Some s => s
  | None => lit "undefined"
  end.

(** Character classes: word characters ([A-Za-z0-9_]), white space (the
    class written \s), and the three quote characters. *)
Definition is_word (c : code_unit) : bool :=
  ((65 <=? c) && (c <=? 90) || (97 <=? c) && (c <=? 122) ||
   (48 <=? c) && (c <=? 57) || (c =? 95))%N.

Definition is_space (c : code_unit) : bool :=
  ((9 <=? c) && (c <=? 13) || (c =? 32) || (c =? 160) || (c =? 5760) ||
   (8192 <=? c) && (c <=? 8202) || (c =? 8232) || (c =? 8233) ||
   (c =? 8239) || (c =? 8287) || (c =? 12288) || (c =? 65279))%N.

Definition is_newline (c : code_unit) : bool := (c =? 10)%N.

Definition is_quote (c : code_unit) : bool :=
  ((c =? 96) || (c =? 39) || (c =? 34))%N.

Definition lbrace : code_unit := 123%N.
Definition rbrace : code_unit := 125%N.
Definition langle : code_unit := 60%N.
Definition dquote : code_unit := 34%N.

(** ** Regular expressions

    A pattern is embedded as the function that matches it at the start of a
    string and returns the length of the match, as the sticky match of
    [String.prototype.split] does at each position. *)

Definition matcher := jsstring -> option nat.

Fixpoint starts_with (p s : jsstring) : bool :=
  match p, s with
  | [], _ => true
  | x :: p', y :: s' => N.eqb x y && starts_with p' s'
  | _ :: _, [] => false
  end.

Definition re_literal (p : jsstring) : matcher :=
  fun s => if starts_with p s then Some (length p) else None.

(** A single character of a class. *)
Definition re_class (cl : code_unit -> bool) : matcher :=
  fun s => match s with
           | c :: _ => if cl c then Some 1 else None
           | [] => None
           end.

(** [\W*] followed by [k]: greedy, giving characters back when [k] fails. *)
Fixpoint re_nonword_star (k : matcher) (s : jsstring) : option nat :=
  match s with
  | [] => k []
  | c :: s' =>
      if is_word c then k s
      else match re_nonword_star k s' with
           | Some n => Some (S n)
           | None => k s
           end
  end.

(** [/<\W*NAME>/], the delimiter of the section NAME. *)
Definition re_tag (name : jsstring) : matcher :=
  fun s => match s with
           | c :: s' =>
               if N.eqb c langle
               then option_map S (re_nonword_star (re_literal (name ++ lit ">")) s')
               else None
           | [] => None
           end.

(** Length of the longest prefix made of characters of [cl]. *)
Fixpoint run_length (cl : code_unit -> bool) (s : jsstring) : nat :=
  match s with
  | c :: s' => if cl c then S (run_length cl s') else 0
  | [] => 0
  end.

(** [/\n|\s{2,}/]: the first alternative is tried first. *)
Definition re_newline_or_spaces : matcher :=
  fun s => match s with
           | c :: _ =>
               if is_newline c then Some 1
               else let n := run_length is_space s in
                    if 2 <=? n then Some n else None
           | [] => None
           end.

(** [/[\n\s]/]. *)
Definition re_whitespace : matcher :=
  re_class (fun c => is_newline c || is_space c).

(** [/\n/], the separator [" "], and the class of the three quotes. *)
Definition re_newline : matcher := re_class is_newline.
Definition sep_space : matcher := re_literal (lit " ").
Definition re_quote : matcher := re_class is_quote.

(** [/^(import)/.test(element)]. *)
Definition test_import (element : jsstring) : bool :=
  starts_with (lit "import") element.

(** ** [split], [join], [indexOf], [lastIndexOf], [slice] *)

(** [split_from m s seg skip]: [s] is what is left to scan, [seg] the
    current segment in reverse, [skip] the number of characters of the last
    match still to pass over. *)
Fixpoint split_from (m : matcher) (s seg : jsstring) (skip : nat)
  : list jsstring :=
  match s with
  | [] => [rev seg]
  | c :: s' =>
      match skip with
      | S k => split_from m s' seg k
      | O =>
          match m s with
          | None => split_from m s' (c :: seg) 0
          | Some (S k) => rev seg :: split_from m s' [] k
          | Some O =>
              match seg with
              | [] => split_from m s' [c] 0
              | _ => rev seg :: split_from m s' [c] 0
              end
          end
      end
  end.

Definition split (m : matcher) (s : jsstring) : list jsstring :=
  match s with
  | [] => match m [] with Some _ => [] | None => [[]] end
  | _ => split_from m s [] 0
  end.

(** [a.join("")]. *)
Definition join_empty (a : list jsstring) : jsstring := concat a.

(** [s.indexOf(c)] for a one-character [c]: -1 when absent. *)
Fixpoint indexOf (c : code_unit) (s : jsstring) : Z :=
  match s with
  | [] => -1
  | x :: s' =>
      if N.eqb x c then 0
      else let i := indexOf c s' in
           if (i <? 0)%Z then -1 else (i + 1)%Z
  end.

(** [s.lastIndexOf(c)]. *)
Fixpoint lastIndexOf (c : code_unit) (s : jsstring) : Z :=
  match s with
  | [] => -1
  | x :: s' =>
      let i := lastIndexOf c s' in
      if (0 <=? i)%Z then (i + 1)%Z
      else if N.eqb x c then 0 else -1
  end.

(** [s.slice(start, end)]: negative indices count from the end, both are
    clamped to the string, and an empty span gives the empty string. *)
Definition slice (s : jsstring) (start stop : Z) : jsstring :=
  let len := Z.of_nat (length s) in
  let from := if (start <? 0)%Z then Z.max (len + start) 0 else Z.min start len in
  let to := if (stop <? 0)%Z then Z.max (len + stop) 0 else Z.min stop len in
  firstn (Z.to_nat (Z.max (to - from) 0)) (skipn (Z.to_nat from) s).

(** ** Components and completions *)

Module Component.
Record t : Type := mk
  { label : jsstring;
    path : jsstring;
    template : jsvalue;
    script : jsvalue;
    style : jsvalue;
    instance : jsvalue }.
End Component.
Abbreviation component := Component.t.

(** A descriptor as [imports] and the caller of [parse] create it. *)
Definition descriptor (label path : jsstring) : component :=
  Component.mk label path None None None None.

Definition set_template (c : component) (v : jsstring) : component :=
  Component.mk (Component.label c) (Component.path c) (Some v)
    (Component.script c) (Component.style c) (Component.instance c).
Definition set_script (c : component) (v : jsstring) : component :=
  Component.mk (Component.label c) (Component.path c) (Component.template c)
    (Some v) (Component.style c) (Component.instance c).
Definition set_style (c : component) (v : jsstring) : component :=
  Component.mk (Component.label c) (Component.path c) (Component.template c)
    (Component.script c) (Some v) (Component.instance c).
Definition set_instance (c : component) (v : jsstring) : component :=
  Component.mk (Component.label c) (Component.path c) (Component.template c)
    (Component.script c) (Component.style c) (Some v).

(** What a call ends with: a value, or a thrown exception.  [TypeError] is
    what reading a property of [undefined] throws, [NotFound] what
    [Deno.readTextFile] rejects with. *)
Inductive error : Type := TypeError | NotFound.

Inductive completion (A : Type) : Type :=
| Normal (a : A)
| Throw (e : error).
Arguments Normal {A} a.
Arguments Throw {A} e.

(** ** The section extractors *)

(** [data.split(regex)[1]]. *)
Definition second_segment (m : matcher) (data : jsstring) : jsvalue :=
  nth_error (split m data) 1.

Definition template (data : jsstring) (current : component)
  : completion component :=
  match second_segment (re_tag (lit "template")) data with
  | None => Throw TypeError
  | Some t =>
      Normal (set_template current (join_empty (split re_newline_or_spaces t)))
  end.

Definition script (data : jsstring) (current : component)
  : completion component :=
  match second_segment (re_tag (lit "script")) data with
  | None => Throw TypeError
  | Some t =>
      let script := join_empty (split re_whitespace t) in
      let start := (indexOf lbrace script + 1)%Z in
      let stop := lastIndexOf rbrace script in
      Normal (set_script current (slice script start stop))
  end.

Definition style (data : jsstring) (current : component)
  : completion component :=
  match second_segment (re_tag (lit "style")) data with
  | None => Throw TypeError
  | Some t => Normal (set_style current (join_empty (split re_whitespace t)))
  end.

(** ** The [vno] object in its environment

    [queue] and [cache] are the two arrays of the object.  [appended] is the
    list of the append requests issued to [Deno.writeTextFile], oldest
    first, each with the path and the data passed.  [history] is a ghost
    record of the calls of [queue.push] and [cache.push]; nothing reads it. *)

Inductive event : Type :=
| Enqueued (l : jsstring)
| Cached (l : jsstring).

Record world : Type := mk_world
  { queue : list component;
    cache : list component;
    appended : list (jsstring * jsvalue);
    history : list event }.

(** The object as the module creates it; the call [vno.build()] that ends
    the module reverses an empty cache and writes nothing. *)
Definition vno_init : world := mk_world [] [] [] [].

(** A method runs on the world and completes normally or throws; what it
    changed before throwing stays changed. *)
Definition M (A : Type) : Type := world -> completion A * world.

Definition ret {A} (a : A) : M A := fun w => (Normal a, w).
Definition throw {A} (e : error) : M A := fun w => (Throw e, w).
Definition bind {A B} (c : M A) (k : A -> M B) : M B :=
  fun w => match c w with
           | (Normal a, w') => k a w'
           | (Throw e, w') => (Throw e, w')
           end.
Definition lift {A} (r : completion A) : M A := fun w => (r, w).

Declare Scope vno_scope.
Delimit Scope vno_scope with vno.
Notation "x <- c ;; k" := (bind c (fun x => k))
  (at level 61, c at next level, right associativity) : vno_scope.
Notation "c ;; k" := (bind c (fun _ => k))
  (at level 61, right associativity) : vno_scope.
Local Open Scope vno_scope.

Fixpoint forEach {A} (l : list A) (f : A -> M unit) : M unit :=
  match l with
  | [] => ret tt
  | x :: l' => f x ;; forEach l' f
  end.

Definition queue_push (c : component) : M unit :=
  fun w => (Normal tt,
            mk_world (queue w ++ [c]) (cache w) (appended w)
              (history w ++ [Enqueued (Component.label c)])).

Definition cache_push (c : component) : M unit :=
  fun w => (Normal tt,
            mk_world (queue w) (cache w ++ [c]) (appended w)
              (history w ++ [Cached (Component.label c)])).

(** [Deno.writeTextFile(path, data, { append: true })]. *)
Definition writeTextFile (path : jsstring) (data : jsvalue) : M unit :=
  fun w => (Normal tt,
            mk_world (queue w) (cache w) (appended w ++ [(path, data)])
              (history w)).

(** [a.some((child) => child.label === l)]. *)
Definition some_label (l : jsstring) (a : list component) : bool :=
  existsb (fun child => str_eqb (Component.label child) l) a.

Definition instance (current : component) : component :=
  let label := Component.label current in
  let template := Component.template current in
  let script := Component.script current in
  if str_eqb label (lit "App") then
    set_instance current
      (10%N :: lit "const " ++ label ++ lit " = new Vue({template: `" ++
       to_str template ++ lit "`," ++ to_str script ++ lit "})")
  else
    set_instance current
      (10%N :: lit "const " ++ label ++ lit " = Vue.component(" ++
       [dquote] ++ label ++ [dquote] ++ lit ", {template: `" ++
       to_str template ++ lit "`," ++ to_str script ++ lit "})").

Definition output_file : jsstring := lit "./vno-build/test.js".

(** [build]: [reverse] is the cache itself, reversed in place. *)
Definition build : M unit :=
  fun w =>
    let reverse := rev (cache w) in
    forEach reverse
      (fun comp => writeTextFile output_file (Component.instance comp))
      (mk_world (queue w) reverse (appended w) (history w)).

Section Environment.

(** [join] of the path module and [Deno.cwd()] are the platform's; the
    files that can be read are the finitely many of [fs], by path. *)
Variable join : jsstring -> jsstring -> jsstring.
Variable cwd : jsstring.
Variable fs : list (jsstring * jsstring).

Definition locate (relative : jsvalue) : jsstring :=
  join cwd (to_str relative).

Definition readTextFile (path : jsstring) : M jsstring :=
  fun w => match find (fun f => str_eqb (fst f) path) fs with
           | Some f => (Normal (snd f), w)
           | None => (Throw NotFound, w)
           end.

(** The lines [imports] works on. *)
Definition import_lines (data : jsstring) : list jsstring :=
  filter test_import (split re_newline data).

(** The component an import line stands for: [path.split] throws when the
    line has no fourth token. *)
Definition import_component (item : jsstring) : completion component :=
  match split sep_space item with
  | _ :: label :: _ :: path :: _ =>
      Normal (descriptor label (locate (nth_error (split re_quote path) 1)))
  | _ => Throw TypeError
  end.

Definition imports (data : jsstring) : M unit :=
  forEach (import_lines data) (fun item =>
    component <- lift (import_component item) ;;
    fun w =>
      if negb (some_label (Component.label component) (cache w)) &&
         negb (some_label (Component.label component) (queue w))
      then queue_push component w
      else (Normal tt, w)).

(** One turn of the loop of [parse], after [queue.shift()]. *)
Definition process (current : component) : M unit :=
  data <- readTextFile (Component.path current) ;;
  c1 <- lift (template data current) ;;
  c2 <- lift (script data c1) ;;
  c3 <- lift (style data c2) ;;
  let c4 := instance c3 in
  imports data ;;
  cache_push c4.

(** [while (this.queue.length)]: [None] when the fuel runs out. *)
Fixpoint drain (fuel : nat) (w : world) : option (completion unit * world) :=
  match queue w with
  | [] => Some (Normal tt, w)
  | current :: rest =>
      match fuel with
      | O => None
      | S fuel' =>
          match process current
                  (mk_world rest (cache w) (appended w) (history w)) with
          | (Normal _, w') => drain fuel' w'
          | (Throw e, w') => Some (Throw e, w')
          end
      end
  end.

Definition parse (fuel : nat) (root : component) (w : world)
  : option (completion (list component) * world) :=
  let (_, w1) := queue_push root w in
  match drain fuel w1 with
  | None => None
  | Some (Throw e, w2) => Some (Throw e, w2)
  | Some (Normal _, w2) =>
      match build w2 with
      | (Normal _, w3) => Some (Normal (cache w3), w3)
      | (Throw e, w3) => Some (Throw e, w3)
      end
  end.

End Environment.

(** ** Sample data used by the examples *)

Definition nl : string := String (ascii_of_nat 10) EmptyString.


(** A stand-in for [join] on the examples: the two parts with a slash
    between them, a leading [./] of the second dropped. *)
Definition sample_join (a b : jsstring) : jsstring :=
  a ++ lit "/" ++ (if starts_with (lit "./") b then skipn 2 b else b).

(** A component file with the three sections and [body] at the head of its
    script. *)
Definition sfc (body : string) : jsstring :=
  lit "<template><p>x</p></template>" ++ lit nl ++ lit "<script>" ++ lit nl ++
  lit body ++ lit nl ++ lit "export default {name: 'x'}" ++ lit nl ++
  lit "</script>" ++ lit nl ++ lit "<style>p{}</style>".

Definition app_root : component := descriptor (lit "App") (lit "/w/App.vue").

Definition fs_app_child : list (jsstring * jsstring) :=
  [ (lit "/w/App.vue", sfc "import Child from './Child.vue'");
    (lit "/w/Child.vue", sfc "") ].

Definition fs_self_import : list (jsstring * jsstring) :=
  [ (lit "/w/App.vue", sfc "import App from './App.vue'") ].

(** ** Definitions used by the properties *)

Definition root_form (label T S : jsstring) : jsstring :=
  lit nl ++ lit "const " ++ label ++ lit " = new Vue({template: `" ++ T ++
  lit "`," ++ S ++ lit "})".

Definition named_form (label T S : jsstring) : jsstring :=
  lit nl ++ lit "const " ++ label ++ lit " = Vue.component(" ++ [dquote] ++
  label ++ [dquote] ++ lit ", {template: `" ++ T ++ lit "`," ++ S ++ lit "})".

Definition request (comp : component) : jsstring * jsvalue :=
  (output_file, Component.instance comp).

(** [occurs m s]: the pattern matches somewhere in [s]. *)
Fixpoint occurs (m : matcher) (s : jsstring) : bool :=
  match m s with
  | Some _ => true
  | None => match s with
            | [] => false
            | _ :: s' => occurs m s'
            end
  end.

(** [unmatched m a rest]: no match starts inside [a] when [rest] follows. *)
Fixpoint unmatched (m : matcher) (a rest : jsstring) : bool :=
  match a with
  | [] => true
  | _ :: a' =>
      match m (a ++ rest) with
      | Some _ => false
      | None => unmatched m a' rest
      end
  end.

(** The opening and the closing tag of a section. *)
Definition open_tag (name : jsstring) : jsstring :=
  langle :: name ++ lit ">".
Definition close_tag (name : jsstring) : jsstring :=
  langle :: 47%N :: name ++ lit ">".

Definition section_names : list jsstring :=
  [lit "template"; lit "script"; lit "style"].

(** A template whose opening tag is missing. *)
Definition unopened_source : jsstring := lit "<p>x</p></template>".

(** A file with a template and a script but no style section. *)
Definition no_style_source : jsstring :=
  lit "<template><p>x</p></template><script>{}</script>".

Definition trailing_source : jsstring :=
  lit "<template>A</template>TRAILING".

Definition trailing_script_source : jsstring :=
  lit "<script>{a}</script>TRAILING}".

Definition braceless_source : jsstring := lit "<script>abc</script>".

Definition quote_free (a : jsstring) : bool :=
  forallb (fun c => negb (is_quote c)) a.

Definition commented_import : jsstring :=
  lit "import Child from './Child.vue' // entry".

Definition named_import : jsstring :=
  lit "import { A } from './A.vue'".

Definition labels (cs : list component) : list jsstring :=
  map Component.label cs.

(** The labels [queue.push] and [cache.push] were called with, in order. *)
Fixpoint enqueued (h : list event) : list jsstring :=
  match h with
  | [] => []
  | Enqueued l :: h' => l :: enqueued h'
  | Cached _ :: h' => enqueued h'
  end.

Fixpoint cached (h : list event) : list jsstring :=
  match h with
  | [] => []
  | Cached l :: h' => l :: cached h'
  | Enqueued _ :: h' => cached h'
  end.

Definition label_eq_dec : forall a b : jsstring, {a = b} + {a <> b} :=
  list_eq_dec N.eq_dec.

(** The number of distinct labels of a list. *)
Definition distinct (ls : list jsstring) : nat :=
  length (nodup label_eq_dec ls).

Definition readable (fs : list (jsstring * jsstring)) (path : jsstring) : bool :=
  existsb (fun f => str_eqb (fst f) path) fs.

Definition has_section (name data : jsstring) : bool :=
  match second_segment (re_tag name) data with
  | Some _ => true
  | None => false
  end.

Section ImportGraph.

Variable join : jsstring -> jsstring -> jsstring.
Variable cwd : jsstring.
Variable fs : list (jsstring * jsstring).
Variable root : component.

(** The components the import lines [items] stand for. *)
Definition imported_of (items : list jsstring) : list component :=
  flat_map (fun item => match import_component join cwd item with
                        | Normal c => [c]
                        | Throw _ => []
                        end) items.

Definition imported (data : jsstring) : list component :=
  imported_of (import_lines data).

(** Every component of the set: the root and what any file imports. *)
Definition components : list component :=
  root :: flat_map (fun f => imported (snd f)) fs.

(** The import graph by label: an edge from the label of a component to
    the label of each component its file imports. *)
Definition label_edges : list (jsstring * jsstring) :=
  flat_map (fun c =>
              match find (fun f => str_eqb (fst f) (Component.path c)) fs with
              | Some f => map (fun c' => (Component.label c, Component.label c'))
                            (imported (snd f))
              | None => []
              end) components.

(** A component file: the three sections are there and every import line
    has its four tokens. *)
Definition component_file (data : jsstring) : bool :=
  has_section (lit "template") data && has_section (lit "script") data &&
  has_section (lit "style") data &&
  forallb (fun item => match import_component join cwd item with
                       | Normal _ => true
                       | Throw _ => false
                       end) (import_lines data).

(** The set is made of component files and holds the file of the root and
    of every import. *)
Definition well_formed : bool :=
  readable fs (Component.path root) &&
  forallb (fun f => component_file (snd f) &&
                    forallb (fun c => readable fs (Component.path c))
                      (imported (snd f))) fs.

End ImportGraph.

Definition acyclic (E : list (jsstring * jsstring)) : Prop :=
  forall l, ~ clos_trans jsstring (fun a b => In (a, b) E) l l.

(** What the callback of [imports] does with a component it has built. *)
Definition push_new (c : component) (w : world) : world :=
  if negb (some_label (Component.label c) (cache w)) &&
     negb (some_label (Component.label c) (queue w))
  then snd (queue_push c w)
  else w.

Definition push_all (cs : list component) (w : world) : world :=
  fold_left (fun w c => push_new c w) cs w.

(** What holds of the world each time the loop of [parse] tests its
    condition. *)
Record scheduler_inv (known : list component) (w : world) : Prop :=
  { inv_enqueued : enqueued (history w) = labels (cache w) ++ labels (queue w);
    inv_cached : cached (history w) = labels (cache w);
    inv_nodup : NoDup (labels (cache w) ++ labels (queue w));
    inv_queue : forall c, In c (queue w) -> In c known;
    inv_cache : forall l, In l (labels (cache w)) -> In l (labels known) }.

Definition self_import_free (E : list (jsstring * jsstring)) : Prop :=
  forall l, ~ In (l, l) E.

(** The worlds in which the loop of [parse] tests its condition during a
    build from the fresh object. *)
Inductive loop_state (join : jsstring -> jsstring -> jsstring)
  (cwd : jsstring) (fs : list (jsstring * jsstring)) (root : component)
  : world -> Prop :=
| loop_start :
    loop_state join cwd fs root
      (mk_world [root] [] [] [Enqueued (Component.label root)])
| loop_turn (w w' : world) (current : component) (rest : list component) :
    loop_state join cwd fs root w ->
    queue w = current :: rest ->
    process join cwd fs current
      (mk_world rest (cache w) (appended w) (history w)) = (Normal tt, w') ->
    loop_state join cwd fs root w'.

Definition app_rank (l : jsstring) : nat :=
  if str_eqb l (lit "App") then 1 else 0.

(** The root imports two components that import nothing. *)
Definition two_imports : string :=
  String.append "import Child from './Child.vue'"
    (String.append nl "import Other from './Other.vue'").

Definition fs_two_children : list (jsstring * jsstring) :=
  [ (lit "/w/App.vue", sfc two_imports);
    (lit "/w/Child.vue", sfc "");
    (lit "/w/Other.vue", sfc "") ].

(** The same set with a file of [Child] that has no style section. *)
Definition fs_broken_child : list (jsstring * jsstring) :=
  [ (lit "/w/App.vue", sfc two_imports);
    (lit "/w/Child.vue", lit "<template><p>c</p></template><script>{}</script>");
    (lit "/w/Other.vue", sfc "") ].

(** What the output file holds once the requests issued have completed.
    [build] does not await the promise [Deno.writeTextFile] returns, so
    every request is pending when the next one is issued, and the platform
    completes them in an order of its own: [schedule], a permutation of
    the order of issue. *)
Definition file_after
  (schedule : list (jsstring * jsvalue) -> list (jsstring * jsvalue))
  (w : world) : list jsvalue :=
  map snd (schedule (appended w)).

(** [l] is reached from the label of the root along the import graph. *)
Definition reaches (join : jsstring -> jsstring -> jsstring)
  (cwd : jsstring) (fs : list (jsstring * jsstring)) (root : component)
  (l : jsstring) : Prop :=
  clos_refl_trans jsstring
    (fun a b => In (a, b) (label_edges join cwd fs root))
    (Component.label root) l.

(** How the queue and the store stand to the files of the set each time
    the loop tests its condition: the queue holds components of the set,
    every label held is reached from the root, and whatever the file of a
    stored record imports is held under its label. *)
Record discovery_inv (join : jsstring -> jsstring -> jsstring)
  (cwd : jsstring) (fs : list (jsstring * jsstring)) (root : component)
  (w : world) : Prop :=
  { disc_queue :
      forall c, In c (queue w) -> In c (components join cwd fs root);
    disc_reach :
      forall l, In l (labels (cache w) ++ labels (queue w)) ->
                reaches join cwd fs root l;
    disc_closed :
      forall c f c',
        In c (cache w) ->
        find (fun f => str_eqb (fst f) (Component.path c)) fs = Some f ->
        In c' (imported join cwd (snd f)) ->
        In (Component.label c') (labels (cache w) ++ labels (queue w)) }.

(** ** Definitions used by the further properties *)

(** What [split] followed by [join("")] leaves of a string: [skip] counts
    the characters of the current match still to drop. *)
Fixpoint kept (m : matcher) (s : jsstring) (skip : nat) : jsstring :=
  match s with
  | [] => []
  | c :: s' =>
      match skip with
      | S k => kept m s' k
      | O =>
          match m s with
          | Some (S k) => kept m s' k
          | _ => c :: kept m s' 0
          end
      end
  end.

(** No newline, and no white space followed by white space. *)
Fixpoint tidy (o : jsstring) : bool :=
  match o with
  | [] => true
  | c :: o' =>
      negb (is_newline c) &&
      (negb (is_space c) ||
       match o' with
       | [] => true
       | d :: _ => negb (is_space d)
       end) &&
      tidy o'
  end.

Definition brace_free (c : code_unit) (s : jsstring) : bool :=
  negb (existsb (N.eqb c) s).

Definition scoped_style_source : jsstring :=
  lit "<template><p>x</p></template><style scoped>p{}</style>".

Definition two_imports_source : jsstring :=
  lit "import A from './A.vue'" ++ lit nl ++ lit "import B".

(** A record as [parse] stores it: the three sections extracted and the
    fragment built from its own label, template and script. *)
Definition finalized (c : component) : Prop :=
  exists T S Y,
    Component.template c = Some T /\
    Component.script c = Some S /\
    Component.style c = Some Y /\
    Component.instance c =
      Some (if str_eqb (Component.label c) (lit "App")
            then root_form (Component.label c) T S
            else named_form (Component.label c) T S).

(** What holds at each test of the loop condition during a build from the
    fresh object, whatever the import graph. *)
Record run_inv (root : component) (w : world) : Prop :=
  { run_enqueued :
      enqueued (history w) = labels (cache w) ++ labels (queue w);
    run_cached : cached (history w) = labels (cache w);
    run_appended : appended w = [];
    run_finalized : Forall finalized (cache w);
    run_first :
      exists c rest,
        cache w ++ queue w = c :: rest /\
        Component.label c = Component.label root /\
        Component.path c = Component.path root }.

Definition fs_missing_child : list (jsstring * jsstring) :=
  [ (lit "/w/App.vue", sfc "import Child from './Child.vue'") ].

(** The labels of the set not yet in the store, and the records of the
    queue whose label the store already holds. *)
Definition uncached (U : list jsstring) (w : world) : list jsstring :=
  filter (fun l => negb (some_label l (cache w))) (nodup label_eq_dec U).

Definition requeued (w : world) : list component :=
  filter (fun c => some_label (Component.label c) (cache w)) (queue w).

Definition turns_left (U : list jsstring) (w : world) : nat :=
  2 * length (uncached U w) + length (requeued w).

Record queue_inv (known : list component) (w : world) : Prop :=
  { queue_nodup : NoDup (labels (queue w));
    queue_known : forall c, In c (queue w) -> In c known }.

(** ** The [Storage] class

    [app] is a plain object used as a map from label to component: its own
    properties are kept in the order in which they were first set.  A key
    that is not an own property is looked up on [Object.prototype], whose
    property names the platform fixes ([inherited]).  The key [__proto__]
    is an ordinary key under Deno, which removes the accessor from
    [Object.prototype]; the properties of the class are stated for the
    other keys, and so hold with the accessor too.  [_root] and [_vue]
    start as empty objects, here
    [None].  [size] is a JavaScript number: adding one is exact up to
    2^53 and leaves 2^53 as it is. *)

Module Storage.

Section WithTypes.

(** [Component] and [Vue.State] are declared in [factory.d.ts]. *)
Variable Component : Type.
Variable State : Type.
Variable inherited : jsstring -> bool.

Record t : Type := mk
  { app : list (jsstring * Component);
    _root : option Component;
    _vue : option State;
    size : N }.

(** What reading a property of [app] gives. *)
Inductive property : Type :=
| Own (c : Component)
| FromObjectPrototype
| Undefined.

Definition new : t := mk [] None None 0%N.

Fixpoint own (label : jsstring) (o : list (jsstring * Component))
  : option Component :=
  match o with
  | [] => None
  | (k, c) :: o' => if str_eqb k label then Some c else own label o'
  end.

(** [o[label] = component]. *)
Fixpoint assign (label : jsstring) (component : Component)
  (o : list (jsstring * Component)) : list (jsstring * Component) :=
  match o with
  | [] => [(label, component)]
  | (k, c) :: o' =>
      if str_eqb k label then (k, component) :: o'
      else (k, c) :: assign label component o'
  end.

Definition add_one (n : N) : N :=
  if (n <? 2 ^ 53)%N then (n + 1)%N else n.

Definition cache (label : jsstring) (component : Component) (s : t)
  : Component * t :=
  (component,
   mk (assign label component (app s)) (_root s) (_vue s) (add_one (size s))).

Definition get (label : jsstring) (s : t) : property :=
  match own label (app s) with
  | Some c => Own c
  | None => if inherited label then FromObjectPrototype else Undefined
  end.

Definition root (s : t) : option Component := _root s.

Definition set_root (component : Component) (s : t) : t :=
  mk (app s) (Some component) (_vue s) (size s).

Definition vue (s : t) : option State := _vue s.

Definition set_vue (v : State) (s : t) : t :=
  mk (app s) (_root s) (Some v) (size s).

(** A run of calls of [cache], first call first. *)
Definition cache_all (ops : list (jsstring * Component)) (s : t) : t :=
  fold_left (fun s op => snd (cache (fst op) (snd op) s)) ops s.

Definition ordinary (label : jsstring) : bool :=
  negb (str_eqb label (lit "__proto__")).

End WithTypes.

Arguments app {Component State} t.
Arguments _root {Component State} t.
Arguments _vue {Component State} t.
Arguments size {Component State} t.
Arguments Own {Component} c.
Arguments FromObjectPrototype {Component}.
Arguments Undefined {Component}.
Arguments own {Component} label o.
Arguments assign {Component} label component o.
Arguments cache {Component State} label component s.
Arguments get {Component State} inherited label s.
Arguments root {Component State} s.
Arguments set_root {Component State} component s.
Arguments vue {Component State} s.
Arguments set_vue {Component State} v s.
Arguments cache_all {Component State} ops s.

End Storage.

(** * Properties *)

(** ** Strings *)

Lemma str_eqb_eq (a b : jsstring) : str_eqb a b = true <-> a = b.
Proof.
  revert b; induction a as [|x a IH]; intros [|y b]; simpl;
    try (split; [discriminate | congruence]); try tauto.
  rewrite andb_true_iff, N.eqb_eq, IH. split.
  - intros [-> ->]; reflexivity.
  - intros H; inversion H; auto.
Qed.

Lemma str_eqb_refl (a : jsstring) : str_eqb a a = true.
Proof. apply str_eqb_eq; reflexivity. Qed.

Lemma str_eqb_neq (a b : jsstring) : str_eqb a b = false <-> a <> b.
Proof.
  rewrite <- str_eqb_eq. destruct (str_eqb a b); split; congruence.
Qed.

(** ** The extractors on the scenario of the specification *)


(** ** Instance fragments *)

(** C9: [instance] branches on the one root label [App]: a component with
    that label gets the root form [new Vue({template: T, S})], every other
    label the named registration [Vue.component(label, ...)] with the label
    as registry key and as binding name; nothing else of the record
    changes. *)
Theorem instance_root_or_named (current : component) :
  let label := Component.label current in
  let T := to_str (Component.template current) in
  let S := to_str (Component.script current) in
  (label = lit "App" ->
   instance current = set_instance current (root_form label T S)) /\
  (label <> lit "App" ->
   instance current = set_instance current (named_form label T S)).
Proof.
  cbv zeta. unfold instance. split; intros H.
  - rewrite (proj2 (str_eqb_eq _ _) H). reflexivity.
  - rewrite (proj2 (str_eqb_neq _ _) H). reflexivity.
Qed.

Lemma instance_root_or_named_witness :
  instance (Component.mk (lit "App") (lit "/w/App.vue")
              (Some (lit "T")) (Some (lit "S")) None None)
  = Component.mk (lit "App") (lit "/w/App.vue")
      (Some (lit "T")) (Some (lit "S")) None
      (Some (lit nl ++ lit "const App = new Vue({template: `T`,S})")) /\
  instance (Component.mk (lit "Child") (lit "/w/Child.vue")
              (Some (lit "T")) (Some (lit "S")) None None)
  = Component.mk (lit "Child") (lit "/w/Child.vue")
      (Some (lit "T")) (Some (lit "S")) None
      (Some (lit nl ++ lit "const Child = Vue.component(" ++ [dquote] ++
             lit "Child" ++ [dquote] ++ lit ", {template: `T`,S})")).
Proof.
  split.
  - apply (proj1 (instance_root_or_named
                    (Component.mk (lit "App") (lit "/w/App.vue")
                       (Some (lit "T")) (Some (lit "S")) None None))).
    reflexivity.
  - apply (proj2 (instance_root_or_named
                    (Component.mk (lit "Child") (lit "/w/Child.vue")
                       (Some (lit "T")) (Some (lit "S")) None None))).
    discriminate.
Defined.

(** ** The emitter *)

Lemma forEach_write (l : list component) (w : world) :
  forEach l (fun comp => writeTextFile output_file (Component.instance comp)) w
  = (Normal tt,
     mk_world (queue w) (cache w) (appended w ++ map request l) (history w)).
Proof.
  revert w; induction l as [|c l IH]; intros w; simpl.
  - unfold ret. rewrite app_nil_r. destruct w; reflexivity.
  - unfold bind, writeTextFile at 1. rewrite IH. simpl.
    rewrite <- app_assoc. reflexivity.
Qed.

Lemma build_spec (w : world) :
  build w = (Normal tt,
             mk_world (queue w) (rev (cache w))
               (appended w ++ map request (rev (cache w))) (history w)).
Proof. unfold build. rewrite forEach_write. reflexivity. Qed.

(** C3 fails on the code: [build] awaits none of its calls of
    [Deno.writeTextFile] (nor the call of [ensureDir] before them), so the
    code fixes the order in which the append requests are issued, not the
    order in which they reach the file.  On the set [fs_two_children] the
    store is finalized in the order App, Child, Other and [build] issues
    the requests in the order Other, Child, App; the file holds the
    fragments in that order only if the platform completes the pending
    requests in the order of issue, and under another order of completion
    it does not. *)
Theorem unawaited_appends_race :
  exists r w,
    parse sample_join (lit "/w") fs_two_children 3 app_root vno_init
      = Some (Normal r, w) /\
    cached (history w) = [lit "App"; lit "Child"; lit "Other"] /\
    labels r = [lit "Other"; lit "Child"; lit "App"] /\
    appended w = map request r /\
    exists schedule : list (jsstring * jsvalue) -> list (jsstring * jsvalue),
      (forall l, Permutation l (schedule l)) /\
      file_after schedule w <> map Component.instance r.
Proof.
  eexists. eexists. split; [vm_compute; reflexivity|].
  split; [reflexivity|]. split; [reflexivity|]. split; [reflexivity|].
  exists (@rev (jsstring * jsvalue)). split; [apply Permutation_rev|].
  vm_compute. discriminate.
Qed.

(** ** [split] between two matches *)

Lemma split_from_no_occurrence (m : matcher) (s seg : jsstring) :
  occurs m s = false -> split_from m s seg 0 = [rev seg ++ s].
Proof.
  revert seg; induction s as [|c s IH]; intros seg H; simpl.
  - rewrite app_nil_r; reflexivity.
  - simpl in H. destruct (m (c :: s)); [discriminate|].
    rewrite IH by assumption. simpl. rewrite <- app_assoc. reflexivity.
Qed.

Lemma split_no_occurrence (m : matcher) (s : jsstring) :
  occurs m s = false -> split m s = [s].
Proof.
  intros H. destruct s as [|c s].
  - simpl in *. destruct (m []); [discriminate | reflexivity].
  - unfold split. rewrite split_from_no_occurrence by assumption. reflexivity.
Qed.

Lemma second_segment_absent (m : matcher) (data : jsstring) :
  occurs m data = false -> second_segment m data = None.
Proof.
  intros H. unfold second_segment. rewrite split_no_occurrence by assumption.
  reflexivity.
Qed.

Lemma split_from_two (m : matcher) (s seg : jsstring) :
  (forall t, m t <> Some 0) -> m [] = None -> occurs m s = true ->
  exists x y ys, split_from m s seg 0 = x :: y :: ys.
Proof.
  intros Hnz Hnil.
  assert (One : forall t sg k, exists x xs, split_from m t sg k = x :: xs).
  { induction t as [|c t IH]; intros sg k; simpl; [eauto|].
    destruct k as [|k]; [|apply IH].
    destruct (m (c :: t)) as [[|n]|]; [destruct sg| |]; eauto. }
  revert seg; induction s as [|c s IH]; intros seg H; simpl in H.
  - rewrite Hnil in H. discriminate.
  - simpl. destruct (m (c :: s)) as [[|n]|] eqn:E.
    + exfalso. exact (Hnz _ E).
    + destruct (One s [] n) as [y [ys ->]]. eauto.
    + apply IH. exact H.
Qed.

Lemma second_segment_present (m : matcher) (data : jsstring) :
  (forall t, m t <> Some 0) -> m [] = None -> occurs m data = true ->
  exists t, second_segment m data = Some t.
Proof.
  intros Hnz Hnil H. unfold second_segment, split.
  destruct data as [|c data].
  - simpl in H. rewrite Hnil in H. discriminate.
  - destruct (split_from_two m (c :: data) [] Hnz Hnil H) as [x [y [ys ->]]].
    exists y. reflexivity.
Qed.

Lemma re_tag_nonzero (name t : jsstring) : re_tag name t <> Some 0.
Proof.
  unfold re_tag. destruct t as [|c t]; [discriminate|].
  destruct (N.eqb c langle); [|discriminate].
  destruct (re_nonword_star _ t); discriminate.
Qed.

(** A section is found exactly when its delimiter matches somewhere. *)
Lemma has_section_occurs (name data : jsstring) :
  has_section name data = occurs (re_tag name) data.
Proof.
  unfold has_section. destruct (occurs (re_tag name) data) eqn:E.
  - destruct (second_segment_present (re_tag name) data
                (re_tag_nonzero name) eq_refl E) as [t ->]. reflexivity.
  - rewrite second_segment_absent by exact E. reflexivity.
Qed.

Lemma split_from_unmatched (m : matcher) (a rest seg : jsstring) :
  unmatched m a rest = true ->
  split_from m (a ++ rest) seg 0 = split_from m rest (rev a ++ seg) 0.
Proof.
  revert seg; induction a as [|c a IH]; intros seg H; [reflexivity|].
  simpl in H. simpl app at 1. simpl split_from.
  destruct (m (c :: a ++ rest)); [discriminate|].
  rewrite IH by assumption. simpl. rewrite <- app_assoc. reflexivity.
Qed.

Lemma split_from_skip (m : matcher) (d rest seg : jsstring) :
  split_from m (d ++ rest) seg (length d) = split_from m rest seg 0.
Proof.
  induction d as [|c d IH]; simpl; [|exact IH].
  destruct rest; reflexivity.
Qed.

Lemma split_from_match (m : matcher) (c : code_unit) (d rest seg : jsstring) :
  m (c :: d ++ rest) = Some (S (length d)) ->
  split_from m (c :: d ++ rest) seg 0 = rev seg :: split_from m rest [] 0.
Proof.
  intros H. simpl. rewrite H. rewrite split_from_skip. reflexivity.
Qed.

Lemma second_segment_between
  (m : matcher) (o c : code_unit) (O C pre body post : jsstring) :
  m (o :: O ++ body ++ c :: C ++ post) = Some (S (length O)) ->
  m (c :: C ++ post) = Some (S (length C)) ->
  unmatched m pre (o :: O ++ body ++ c :: C ++ post) = true ->
  unmatched m body (c :: C ++ post) = true ->
  second_segment m (pre ++ o :: O ++ body ++ c :: C ++ post) = Some body.
Proof.
  intros HO HC Hpre Hbody. unfold second_segment.
  assert (E : split m (pre ++ o :: O ++ body ++ c :: C ++ post)
              = split_from m (pre ++ o :: O ++ body ++ c :: C ++ post) [] 0)
    by (destruct pre; reflexivity).
  rewrite E, split_from_unmatched by assumption.
  rewrite split_from_match by assumption.
  rewrite split_from_unmatched by assumption.
  rewrite split_from_match by assumption.
  simpl. rewrite app_nil_r, rev_involutive. reflexivity.
Qed.

Lemma re_tag_open (name rest : jsstring) :
  In name section_names ->
  re_tag name (open_tag name ++ rest) = Some (length (open_tag name)).
Proof.
  intros [<-|[<-|[<-|[]]]]; reflexivity.
Qed.

Lemma re_tag_close (name rest : jsstring) :
  In name section_names ->
  re_tag name (close_tag name ++ rest) = Some (length (close_tag name)).
Proof.
  intros [<-|[<-|[<-|[]]]]; reflexivity.
Qed.

Lemma unmatched_no_langle (name a rest : jsstring) :
  (forall c, In c a -> c <> langle) -> unmatched (re_tag name) a rest = true.
Proof.
  induction a as [|c a IH]; intros H; [reflexivity|].
  simpl. destruct (N.eqb_spec c langle) as [E|_].
  - exfalso. apply (H c); [left; reflexivity | exact E].
  - apply IH. intros x Hx. apply H. right; exact Hx.
Qed.

(** ** A section whose delimiter is absent *)

Lemma process_throws_before_imports
  (join : jsstring -> jsstring -> jsstring) (cwd : jsstring)
  (fs : list (jsstring * jsstring)) (current : component)
  (data : jsstring) (w : world) :
  readTextFile fs (Component.path current) w = (Normal data, w) ->
  (forall c, template data c = Throw TypeError) \/
  (forall c, script data c = Throw TypeError) \/
  (forall c, style data c = Throw TypeError) ->
  process join cwd fs current w = (Throw TypeError, w).
Proof.
  intros Hread H. unfold process, bind. rewrite Hread. unfold lift.
  assert (T : forall c r, template data c = r -> r = Throw TypeError \/
                          exists c', r = Normal c').
  { intros c r <-. unfold template. destruct (second_segment _ data); eauto. }
  assert (S : forall c r, script data c = r -> r = Throw TypeError \/
                          exists c', r = Normal c').
  { intros c r <-. unfold script. destruct (second_segment _ data); eauto. }
  assert (Y : forall c r, style data c = r -> r = Throw TypeError \/
                          exists c', r = Normal c').
  { intros c r <-. unfold style. destruct (second_segment _ data); eauto. }
  destruct (T current _ eq_refl) as [-> | [c1 E1]]; [reflexivity|].
  rewrite E1.
  destruct (S c1 _ eq_refl) as [-> | [c2 E2]]; [reflexivity|].
  rewrite E2.
  destruct (Y c2 _ eq_refl) as [-> | [c3 E3]]; [reflexivity|].
  exfalso. destruct H as [H|[H|H]].
  - rewrite H in E1; discriminate.
  - rewrite H in E2; discriminate.
  - rewrite H in E3; discriminate.
Qed.

(** C5, as stated, fails: [unopened_source] has no opening tag of the
    template section, only the closing one; the closing tag matches the
    delimiter pattern, so [template] does not throw and stores the empty
    text that follows the tag. *)
Lemma closing_tag_alone_is_split :
  unopened_source = lit "<p>x</p>" ++ close_tag (lit "template") /\
  occurs (re_literal (open_tag (lit "template"))) unopened_source = false /\
  occurs (re_tag (lit "template")) (lit "<p>x</p>") = false /\
  template unopened_source app_root = Normal (set_template app_root []).
Proof. repeat split. Qed.

(** C5, amended: when nothing in the source matches the delimiter pattern
    of a section (neither an opening nor a closing tag of it), and only
    then, the extractor of that section throws (the MissingSection
    condition: the split has no second segment to work on) and so returns
    no record; in [parse] the exception ends the processing of the
    component before anything is stored: the world is as it was after
    [queue.shift()], the record is not in the store and [imports] has not
    run. *)
Theorem missing_section_throws (data : jsstring) (current : component) :
  (occurs (re_tag (lit "template")) data = false <->
   template data current = Throw TypeError) /\
  (occurs (re_tag (lit "script")) data = false <->
   script data current = Throw TypeError) /\
  (occurs (re_tag (lit "style")) data = false <->
   style data current = Throw TypeError) /\
  (forall join cwd fs w,
     readTextFile fs (Component.path current) w = (Normal data, w) ->
     occurs (re_tag (lit "template")) data = false \/
     occurs (re_tag (lit "script")) data = false \/
     occurs (re_tag (lit "style")) data = false ->
     process join cwd fs current w = (Throw TypeError, w)).
Proof.
  assert (T : forall c, occurs (re_tag (lit "template")) data = false <->
                        template data c = Throw TypeError).
  { intros c. rewrite <- has_section_occurs. unfold has_section, template.
    destruct (second_segment _ data); split; congruence. }
  assert (S : forall c, occurs (re_tag (lit "script")) data = false <->
                        script data c = Throw TypeError).
  { intros c. rewrite <- has_section_occurs. unfold has_section, script.
    destruct (second_segment _ data); split; congruence. }
  assert (Y : forall c, occurs (re_tag (lit "style")) data = false <->
                        style data c = Throw TypeError).
  { intros c. rewrite <- has_section_occurs. unfold has_section, style.
    destruct (second_segment _ data); split; congruence. }
  split; [apply T|]. split; [apply S|]. split; [apply Y|].
  intros join cwd fs w Hread H.
  apply process_throws_before_imports with (data := data); [exact Hread|].
  destruct H as [H|[H|H]]; [left|right; left|right; right]; intros c.
  - apply T; exact H.
  - apply S; exact H.
  - apply Y; exact H.
Qed.

Lemma missing_section_throws_witness :
  style no_style_source app_root = Throw TypeError /\
  process sample_join (lit "/w") [(lit "/w/App.vue", no_style_source)]
    app_root vno_init
  = (Throw TypeError, vno_init).
Proof.
  split.
  - apply (proj1 (proj1 (proj2 (proj2
             (missing_section_throws no_style_source app_root))))).
    reflexivity.
  - apply (proj2 (proj2 (proj2
             (missing_section_throws no_style_source app_root)))).
    + reflexivity.
    + right; right; reflexivity.
Defined.

(** ** Where the extracted span ends *)

(** C7, as stated, fails: the text after the opening tag of
    [trailing_source] is [A</template>TRAILING], but the span taken is [A]
    alone; and on [trailing_script_source] the brace of the trailing text
    takes no part in the slice. *)
Lemma span_is_not_the_remainder :
  trailing_source = open_tag (lit "template") ++ lit "A</template>TRAILING" /\
  second_segment (re_tag (lit "template")) trailing_source
    <> Some (lit "A</template>TRAILING") /\
  template trailing_source app_root
    = Normal (set_template app_root (lit "A")) /\
  script trailing_script_source app_root
    = Normal (set_script app_root (lit "a")).
Proof.
  split; [reflexivity|]. split; [|split; reflexivity].
  vm_compute. discriminate.
Qed.

(** C7, amended: the closing tag matches the delimiter pattern as the
    opening tag does, so for each of the three sections, when no other
    match starts before the opening tag or inside the body, the span taken
    is the text between the opening and the closing tag; what follows the
    closing tag is not part of it. *)
Theorem span_ends_at_closing_tag (name pre body post : jsstring) :
  In name section_names ->
  unmatched (re_tag name) pre
    (open_tag name ++ body ++ close_tag name ++ post) = true ->
  unmatched (re_tag name) body (close_tag name ++ post) = true ->
  second_segment (re_tag name)
    (pre ++ open_tag name ++ body ++ close_tag name ++ post) = Some body.
Proof.
  intros Hn Hpre Hbody.
  unfold open_tag, close_tag in *. simpl app in *.
  apply second_segment_between with (O := name ++ lit ">")
                                    (C := 47%N :: name ++ lit ">");
    try assumption.
  - exact (re_tag_open name (body ++ langle :: (47%N :: name ++ lit ">") ++ post) Hn).
  - exact (re_tag_close name post Hn).
Qed.

Lemma span_ends_at_closing_tag_witness :
  second_segment (re_tag (lit "template"))
    (lit "<!-- c -->" ++ open_tag (lit "template") ++ lit "<div>Hi</div>" ++
     close_tag (lit "template") ++ lit "TRAILING")
  = Some (lit "<div>Hi</div>").
Proof.
  apply (span_ends_at_closing_tag (lit "template") (lit "<!-- c -->")
           (lit "<div>Hi</div>") (lit "TRAILING")).
  - left; reflexivity.
  - vm_compute; reflexivity.
  - vm_compute; reflexivity.
Defined.

(** ** The slice of [script] *)

Lemma absent_not_in (c : code_unit) (s : jsstring) :
  existsb (N.eqb c) s = false -> ~ In c s.
Proof.
  intros H Hin. assert (E : existsb (N.eqb c) s = true).
  { apply existsb_exists. exists c. split; [exact Hin | apply N.eqb_refl]. }
  congruence.
Qed.

Lemma indexOf_absent (c : code_unit) (s : jsstring) :
  ~ In c s -> indexOf c s = (-1)%Z.
Proof.
  induction s as [|x s IH]; intros H; simpl; [reflexivity|].
  destruct (N.eqb_spec x c) as [E|_].
  - exfalso; apply H; left; exact E.
  - rewrite IH by (intros Hin; apply H; right; exact Hin). reflexivity.
Qed.

Lemma lastIndexOf_absent (c : code_unit) (s : jsstring) :
  ~ In c s -> lastIndexOf c s = (-1)%Z.
Proof.
  induction s as [|x s IH]; intros H; simpl; [reflexivity|].
  rewrite IH by (intros Hin; apply H; right; exact Hin). simpl.
  destruct (N.eqb_spec x c) as [E|_]; [|reflexivity].
  exfalso; apply H; left; exact E.
Qed.

Lemma lastIndexOf_range (c : code_unit) (s : jsstring) :
  (-1 <= lastIndexOf c s < Z.of_nat (length s))%Z.
Proof.
  induction s as [|x s IH]; simpl length; [simpl; lia|].
  simpl lastIndexOf.
  destruct (Z.leb_spec 0 (lastIndexOf c s)); [lia|].
  destruct (N.eqb x c); lia.
Qed.

Lemma slice_drop_last (s : jsstring) : slice s 0 (-1) = removelast s.
Proof.
  unfold slice. rewrite removelast_firstn_len.
  change (0 <? 0)%Z with false. change (-1 <? 0)%Z with true. cbv iota.
  replace (Z.to_nat (Z.min 0 (Z.of_nat (length s)))) with 0%nat by lia.
  simpl skipn. f_equal. lia.
Qed.

Lemma slice_inverted (s : jsstring) (start stop : Z) :
  (0 <= stop < start)%Z -> (stop < Z.of_nat (length s))%Z ->
  slice s start stop = [].
Proof.
  intros H1 H2. unfold slice.
  destruct (Z.ltb_spec start 0); [lia|].
  destruct (Z.ltb_spec stop 0); [lia|].
  replace (Z.to_nat _) with 0%nat by lia. reflexivity.
Qed.

(** C4, as stated, fails: the script section of [braceless_source] is
    [abc], without a brace, and [script] completes normally, storing
    [ab]. *)
Lemma braceless_script_is_sliced :
  second_segment (re_tag (lit "script")) braceless_source = Some (lit "abc") /\
  join_empty (split re_whitespace (lit "abc")) = lit "abc" /\
  ~ In lbrace (lit "abc") /\ ~ In rbrace (lit "abc") /\
  script braceless_source app_root = Normal (set_script app_root (lit "ab")).
Proof.
  repeat split; try reflexivity; vm_compute; intuition discriminate.
Qed.

(** C4, amended: [script] has no MalformedSection failure.  Whenever the
    script delimiter is found, it completes normally and stores the slice of
    the text stripped of white space from after the first opening brace to
    the last closing brace; with no brace at all that slice is the text
    without its last character, and when the first opening brace comes after
    the last closing brace it is the empty string. *)
Theorem script_slices_without_error
  (data t : jsstring) (current : component) :
  second_segment (re_tag (lit "script")) data = Some t ->
  let s := join_empty (split re_whitespace t) in
  let sliced := slice s (indexOf lbrace s + 1) (lastIndexOf rbrace s) in
  script data current = Normal (set_script current sliced) /\
  (~ In lbrace s -> ~ In rbrace s -> sliced = removelast s) /\
  ((0 <= lastIndexOf rbrace s < indexOf lbrace s)%Z -> sliced = []).
Proof.
  intros H s sliced. split; [|split].
  - unfold script. rewrite H. reflexivity.
  - intros Hl Hr. unfold sliced.
    rewrite (indexOf_absent _ _ Hl), (lastIndexOf_absent _ _ Hr).
    apply slice_drop_last.
  - intros Hinv. unfold sliced. apply slice_inverted; [lia|].
    apply lastIndexOf_range.
Qed.

Lemma script_slices_without_error_witness :
  script braceless_source app_root
    = Normal (set_script app_root (removelast (lit "abc"))) /\
  script (lit "<script>}x{</script>") app_root
    = Normal (set_script app_root []).
Proof.
  split.
  - destruct (script_slices_without_error braceless_source (lit "abc")
                app_root eq_refl) as [E [Hnone _]].
    rewrite E. rewrite Hnone; [reflexivity| |].
    + apply absent_not_in; reflexivity.
    + apply absent_not_in; reflexivity.
  - destruct (script_slices_without_error (lit "<script>}x{</script>")
                (lit "}x{") app_root eq_refl) as [E [_ Hinv]].
    rewrite E. rewrite Hinv; [reflexivity|].
    vm_compute. split; [discriminate | reflexivity].
Defined.

(** ** Import lines *)

Lemma unmatched_no_quote (a rest : jsstring) :
  quote_free a = true -> unmatched re_quote a rest = true.
Proof.
  induction a as [|c a IH]; intros H; [reflexivity|].
  simpl in H. apply andb_true_iff in H. destruct H as [Hc Ha].
  simpl. destruct (is_quote c); [discriminate|]. apply IH; exact Ha.
Qed.

(** The first quoted substring: the text between the first two quote
    characters, whichever of the three they are. *)
Lemma first_quoted_substring (a p b : jsstring) (q1 q2 : code_unit) :
  is_quote q1 = true -> is_quote q2 = true ->
  quote_free a = true -> quote_free p = true ->
  nth_error (split re_quote (a ++ q1 :: p ++ q2 :: b)) 1 = Some p.
Proof.
  intros H1 H2 Ha Hp.
  apply (second_segment_between re_quote q1 q2 [] [] a p b).
  - simpl. rewrite H1. reflexivity.
  - simpl. rewrite H2. reflexivity.
  - apply unmatched_no_quote; exact Ha.
  - apply unmatched_no_quote; exact Hp.
Qed.

(** C8, as stated, fails: on an import line with more than four tokens the
    path is not taken from the last token.  On [commented_import] the last
    token is [entry], which holds no quoted text, yet the path is that of
    the fourth token; on [named_import] the last token holds the quoted
    path, yet the fourth token, a brace, is used and the path is that of
    the text [undefined]. *)
Lemma path_is_not_from_last_token :
  last (split sep_space commented_import) [] = lit "entry" /\
  nth_error (split re_quote (lit "entry")) 1 = None /\
  import_component sample_join (lit "/w") commented_import
    = Normal (descriptor (lit "Child") (lit "/w/Child.vue")) /\
  last (split sep_space named_import) [] = lit "'./A.vue'" /\
  nth_error (split re_quote (lit "'./A.vue'")) 1 = Some (lit "./A.vue") /\
  import_component sample_join (lit "/w") named_import
    = Normal (descriptor (lit "{") (lit "/w/undefined")).
Proof. repeat split; reflexivity. Qed.

(** C8, amended: [imports] splits an import line at each single space; the
    label is the second token and the path comes from the first quoted
    substring of the fourth token (the last one on a line of the form
    [import Label from 'path']), joined to the current working directory,
    wherever the importing file is.  A source that only holds
    [import Child from './Child.vue'] enqueues the one descriptor with label
    [Child] and path [join cwd "./Child.vue"]. *)
Theorem import_label_and_path
  (join : jsstring -> jsstring -> jsstring) (cwd : jsstring) :
  (forall (item t0 label t2 a p b : jsstring) (q1 q2 : code_unit)
          (rest : list jsstring),
     split sep_space item = t0 :: label :: t2 :: (a ++ q1 :: p ++ q2 :: b) :: rest ->
     is_quote q1 = true -> is_quote q2 = true ->
     quote_free a = true -> quote_free p = true ->
     import_component join cwd item = Normal (descriptor label (join cwd p))) /\
  imports join cwd (lit "import Child from './Child.vue'") vno_init
  = (Normal tt,
     mk_world [descriptor (lit "Child") (join cwd (lit "./Child.vue"))] [] []
       [Enqueued (lit "Child")]).
Proof.
  split; [|reflexivity].
  intros item t0 label t2 a p b q1 q2 rest Hs H1 H2 Ha Hp.
  unfold import_component. rewrite Hs.
  rewrite (first_quoted_substring a p b q1 q2 H1 H2 Ha Hp). reflexivity.
Qed.

Lemma import_label_and_path_witness :
  import_component sample_join (lit "/w")
    (lit "import Child from `./Child.vue`;")
  = Normal (descriptor (lit "Child") (lit "/w/Child.vue")).
Proof.
  apply (proj1 (import_label_and_path sample_join (lit "/w"))
           (lit "import Child from `./Child.vue`;")
           (lit "import") (lit "Child") (lit "from")
           [] (lit "./Child.vue") (lit ";") 96%N 96%N []).
  - reflexivity.
  - reflexivity.
  - reflexivity.
  - reflexivity.
  - reflexivity.
Defined.

(** ** The import graph of a set of component files *)

(** A rank that decreases along every edge is a proof of acyclicity. *)
Lemma ranked_acyclic (E : list (jsstring * jsstring)) (rank : jsstring -> nat) :
  forallb (fun e => rank (snd e) <? rank (fst e)) E = true -> acyclic E.
Proof.
  intros H l Hl.
  assert (D : forall a b, clos_trans jsstring (fun a b => In (a, b) E) a b ->
                          rank b < rank a).
  { intros a b Hab. induction Hab as [a b Hin | a b c _ IH1 _ IH2].
    - rewrite forallb_forall in H. specialize (H _ Hin).
      apply Nat.ltb_lt in H. exact H.
    - lia. }
  specialize (D l l Hl). lia.
Qed.

Lemma acyclic_no_self_edge (E : list (jsstring * jsstring)) (l : jsstring) :
  acyclic E -> ~ In (l, l) E.
Proof. intros H Hin. apply (H l). apply t_step. exact Hin. Qed.

(** ** The scheduler on a well-formed set of files *)

Lemma some_label_In (l : jsstring) (cs : list component) :
  some_label l cs = true <-> In l (labels cs).
Proof.
  unfold some_label, labels. rewrite existsb_exists, in_map_iff. split.
  - intros [c [Hc E]]. apply str_eqb_eq in E. exists c; auto.
  - intros [c [E Hc]]. exists c; split; [exact Hc|]. apply str_eqb_eq; exact E.
Qed.

Lemma some_label_not_In (l : jsstring) (cs : list component) :
  some_label l cs = false <-> ~ In l (labels cs).
Proof.
  rewrite <- some_label_In. destruct (some_label l cs); split; congruence.
Qed.

Lemma enqueued_app (h k : list event) :
  enqueued (h ++ k) = enqueued h ++ enqueued k.
Proof.
  induction h as [|[l|l] h IH]; simpl; [reflexivity| |exact IH].
  rewrite IH; reflexivity.
Qed.

Lemma cached_app (h k : list event) : cached (h ++ k) = cached h ++ cached k.
Proof.
  induction h as [|[l|l] h IH]; simpl; [reflexivity|exact IH|].
  rewrite IH; reflexivity.
Qed.

Lemma instance_label (c : component) :
  Component.label (instance c) = Component.label c.
Proof. unfold instance. destruct (str_eqb _ _); reflexivity. Qed.

Lemma readable_find (fs : list (jsstring * jsstring)) (p : jsstring) :
  readable fs p = true ->
  exists f, find (fun f => str_eqb (fst f) p) fs = Some f /\ In f fs.
Proof.
  intros H. destruct (find (fun f => str_eqb (fst f) p) fs) as [f|] eqn:E.
  - exists f. split; [reflexivity|]. apply find_some in E. tauto.
  - exfalso. unfold readable in H. apply existsb_exists in H.
    destruct H as [f [Hin Hf]].
    pose proof (find_none _ _ E f Hin) as Hn. simpl in Hn. congruence.
Qed.

Lemma imports_push_all
  (join : jsstring -> jsstring -> jsstring) (cwd data : jsstring) (w : world) :
  forallb (fun item => match import_component join cwd item with
                       | Normal _ => true
                       | Throw _ => false
                       end) (import_lines data) = true ->
  imports join cwd data w = (Normal tt, push_all (imported join cwd data) w).
Proof.
  unfold imports, imported. generalize (import_lines data) as items.
  intros items; revert w.
  induction items as [|item items IH]; intros w H; [reflexivity|].
  simpl in H. apply andb_true_iff in H. destruct H as [Hi Hs].
  simpl forEach. unfold bind at 1. unfold bind at 1. unfold lift at 1.
  unfold imported_of. simpl flat_map.
  destruct (import_component join cwd item) as [c|e]; [|discriminate].
  unfold push_all. rewrite fold_left_app. simpl fold_left at 2.
  unfold push_new at 2.
  destruct (negb (some_label (Component.label c) (cache w)) &&
            negb (some_label (Component.label c) (queue w))).
  - unfold queue_push at 1. simpl snd. apply IH. exact Hs.
  - apply IH. exact Hs.
Qed.

Lemma push_all_spec (lcur : jsstring) (cs : list component) (w : world) :
  NoDup (lcur :: labels (cache w) ++ labels (queue w)) ->
  (forall c, In c cs -> Component.label c <> lcur) ->
  exists new,
    push_all cs w =
      mk_world (queue w ++ new) (cache w) (appended w)
        (history w ++ map (fun c => Enqueued (Component.label c)) new) /\
    incl new cs /\
    NoDup (lcur :: labels (cache w) ++ labels (queue w ++ new)).
Proof.
  revert w; induction cs as [|c cs IH]; intros w Hnd Hne.
  - exists []. simpl. rewrite !app_nil_r. destruct w; repeat split; auto.
    apply incl_refl.
  - unfold push_all. simpl fold_left. fold (push_all cs (push_new c w)).
    assert (Hne' : forall c', In c' cs -> Component.label c' <> lcur)
      by (intros c' Hc'; apply Hne; right; exact Hc').
    unfold push_new.
    destruct (some_label (Component.label c) (cache w)) eqn:Ec; simpl.
    { destruct (IH w Hnd Hne') as [new [E [Hi Hn]]].
      exists new. repeat split; auto. apply incl_tl; exact Hi. }
    destruct (some_label (Component.label c) (queue w)) eqn:Eq; simpl.
    { destruct (IH w Hnd Hne') as [new [E [Hi Hn]]].
      exists new. repeat split; auto. apply incl_tl; exact Hi. }
    apply some_label_not_In in Ec, Eq.
    set (w1 := mk_world (queue w ++ [c]) (cache w) (appended w)
                 (history w ++ [Enqueued (Component.label c)])).
    assert (Hnd1 : NoDup (lcur :: labels (cache w1) ++ labels (queue w1))).
    { simpl. unfold labels at 2. rewrite map_app. simpl map.
      fold (labels (queue w)). rewrite app_assoc.
      apply (Permutation_NoDup
               (l := Component.label c :: lcur :: labels (cache w) ++ labels (queue w))).
      - rewrite app_comm_cons.
        apply (Permutation_cons_append
                 (lcur :: labels (cache w) ++ labels (queue w))
                 (Component.label c)).
      - constructor; [|exact Hnd].
        intros [H|H].
        + apply (Hne c); [left; reflexivity | symmetry; exact H].
        + apply in_app_or in H. tauto. }
    destruct (IH w1 Hnd1 Hne') as [new [E [Hi Hn]]].
    exists (c :: new). rewrite E. simpl. rewrite <- !app_assoc. simpl.
    repeat split.
    + intros x [<-|Hx]; [left; reflexivity | right; apply Hi; exact Hx].
    + simpl in Hn. rewrite <- app_assoc in Hn. exact Hn.
Qed.

Lemma extractors_succeed (data : jsstring) (current : component) :
  has_section (lit "template") data = true ->
  has_section (lit "script") data = true ->
  has_section (lit "style") data = true ->
  exists c1 c2 c3,
    template data current = Normal c1 /\ script data c1 = Normal c2 /\
    style data c2 = Normal c3 /\
    Component.label c3 = Component.label current.
Proof.
  unfold has_section, template, script, style.
  destruct (second_segment (re_tag (lit "template")) data); [|discriminate].
  destruct (second_segment (re_tag (lit "script")) data); [|discriminate].
  destruct (second_segment (re_tag (lit "style")) data); [|discriminate].
  intros _ _ _. do 3 eexists. repeat split.
Qed.

Lemma extractors_keep_label (data : jsstring) (c c1 c2 c3 : component) :
  template data c = Normal c1 -> script data c1 = Normal c2 ->
  style data c2 = Normal c3 ->
  Component.label (instance c3) = Component.label c.
Proof.
  unfold template, script, style. rewrite instance_label.
  destruct (second_segment (re_tag (lit "template")) data); [|discriminate].
  destruct (second_segment (re_tag (lit "script")) data); [|discriminate].
  destruct (second_segment (re_tag (lit "style")) data); [|discriminate].
  intros E1 E2 E3. injection E1 as <-. injection E2 as <-. injection E3 as <-.
  reflexivity.
Qed.

Lemma imports_normal
  (join : jsstring -> jsstring -> jsstring) (cwd data : jsstring)
  (w w' : world) :
  imports join cwd data w = (Normal tt, w') ->
  w' = push_all (imported join cwd data) w.
Proof.
  unfold imports, imported. generalize (import_lines data) as items.
  intros items; revert w.
  induction items as [|item items IH]; intros w H.
  - simpl in H. unfold ret in H. injection H as <-. reflexivity.
  - simpl forEach in H. unfold bind at 1 in H. unfold bind at 1 in H.
    unfold lift at 1 in H.
    unfold imported_of. simpl flat_map.
    destruct (import_component join cwd item) as [c|e]; [|discriminate].
    unfold push_all. rewrite fold_left_app. simpl fold_left at 2.
    unfold push_new at 2.
    destruct (negb (some_label (Component.label c) (cache w)) &&
              negb (some_label (Component.label c) (queue w))).
    + unfold queue_push at 1 in H. simpl snd. apply IH. exact H.
    + apply IH. exact H.
Qed.

(** A turn of the loop that completes has read a file of the set, pushed
    what the file imports and is new, and stored the record under the label
    it was enqueued with. *)
Lemma process_normal
  (join : jsstring -> jsstring -> jsstring) (cwd : jsstring)
  (fs : list (jsstring * jsstring)) (current : component) (w w' : world) :
  process join cwd fs current w = (Normal tt, w') ->
  exists f c4,
    find (fun f => str_eqb (fst f) (Component.path current)) fs = Some f /\
    Component.label c4 = Component.label current /\
    w' = snd (cache_push c4 (push_all (imported join cwd (snd f)) w)).
Proof.
  unfold process, bind, readTextFile, lift. intros H.
  destruct (find _ fs) as [f|] eqn:Hfind; [|discriminate].
  destruct (template (snd f) current) as [c1|] eqn:E1; [|discriminate].
  destruct (script (snd f) c1) as [c2|] eqn:E2; [|discriminate].
  destruct (style (snd f) c2) as [c3|] eqn:E3; [|discriminate].
  destruct (imports join cwd (snd f) w) as [[[]|e] w2] eqn:Ei; [|discriminate].
  apply imports_normal in Ei. subst w2.
  exists f, (instance c3). split; [reflexivity|]. split.
  - exact (extractors_keep_label _ _ _ _ _ E1 E2 E3).
  - unfold cache_push in *. simpl. injection H as <-. reflexivity.
Qed.

Lemma push_all_frame (cs : list component) (w : world) :
  cache (push_all cs w) = cache w /\
  appended (push_all cs w) = appended w /\
  cached (history (push_all cs w)) = cached (history w).
Proof.
  revert w; induction cs as [|c cs IH]; intros w; [auto|].
  unfold push_all. simpl fold_left. fold (push_all cs (push_new c w)).
  destruct (IH (push_new c w)) as [E1 [E2 E3]]. rewrite E1, E2, E3.
  unfold push_new.
  destruct (negb (some_label (Component.label c) (cache w)) &&
            negb (some_label (Component.label c) (queue w))); auto.
  simpl. rewrite cached_app. simpl. rewrite app_nil_r. auto.
Qed.

Section Partition.

Variable join : jsstring -> jsstring -> jsstring.
Variable cwd : jsstring.
Variable fs : list (jsstring * jsstring).
Variable root : component.

Hypothesis Hself : self_import_free (label_edges join cwd fs root).

Lemma no_self_import (c c' : component) (f : jsstring * jsstring) :
  In c (components join cwd fs root) ->
  find (fun f => str_eqb (fst f) (Component.path c)) fs = Some f ->
  In c' (imported join cwd (snd f)) ->
  Component.label c' <> Component.label c.
Proof.
  intros Hc Hf Hc' E.
  apply (Hself (Component.label c)).
  unfold label_edges. apply in_flat_map. exists c. split; [exact Hc|].
  rewrite Hf. apply in_map_iff. exists c'. split; [|exact Hc'].
  rewrite E. reflexivity.
Qed.

Lemma start_inv :
  scheduler_inv (components join cwd fs root) (mk_world [root] [] [] [Enqueued (Component.label root)]).
Proof.
  constructor; simpl; try reflexivity.
  - constructor; [intros []|constructor].
  - intros c [<-|[]]. left; reflexivity.
  - intros l [].
Qed.

Lemma process_inv (w w' : world) (current : component)
  (rest : list component) :
  scheduler_inv (components join cwd fs root) w -> queue w = current :: rest ->
  process join cwd fs current
    (mk_world rest (cache w) (appended w) (history w)) = (Normal tt, w') ->
  scheduler_inv (components join cwd fs root) w' /\ length (cache w') = S (length (cache w)).
Proof.
  intros [Henq Hcached Hnd Hq Hc] Eq Hp. rewrite Eq in *.
  assert (Hcur : In current (components join cwd fs root)) by (apply Hq; left; reflexivity).
  destruct (process_normal _ _ _ _ _ _ Hp) as [f [c4 [Hfind [El Ew]]]].
  assert (Hf : In f fs) by (apply find_some in Hfind; tauto).
  assert (Himp : forall c, In c (imported join cwd (snd f)) -> In c (components join cwd fs root)).
  { intros c Hin. right. apply in_flat_map. exists f. split; assumption. }
  assert (Hnd0 : NoDup (Component.label current ::
                        labels (cache w) ++ labels rest)).
  { simpl in Hnd. apply NoDup_remove in Hnd. constructor; tauto. }
  destruct (push_all_spec (Component.label current)
              (imported join cwd (snd f))
              (mk_world rest (cache w) (appended w) (history w)) Hnd0)
    as [new [Epush [Hincl Hnd1]]].
  { intros c' Hc'. exact (no_self_import current c' f Hcur Hfind Hc'). }
  simpl in Epush, Hnd1. rewrite Epush in Ew. unfold cache_push in Ew.
  simpl in Ew. subst w'. split; [|simpl; rewrite length_app; simpl; lia].
  constructor; simpl; rewrite ?El.
  - rewrite <- app_assoc, !enqueued_app, Henq. simpl.
    assert (E : enqueued (map (fun c => Enqueued (Component.label c)) new)
                = labels new).
    { clear. induction new as [|c new IH]; simpl; [reflexivity|].
      rewrite IH; reflexivity. }
    rewrite E, app_nil_r. unfold labels. rewrite !map_app. simpl.
    rewrite ?El, <- !app_assoc. reflexivity.
  - rewrite !cached_app, Hcached. simpl.
    assert (E : cached (map (fun c => Enqueued (Component.label c)) new) = []).
    { clear. induction new as [|c new IH]; simpl; [reflexivity|exact IH]. }
    rewrite E, app_nil_r. unfold labels. rewrite map_app. simpl.
    rewrite ?El. reflexivity.
  - unfold labels at 1. rewrite map_app. simpl map. rewrite ?El.
    fold (labels (cache w)). rewrite <- app_assoc. simpl.
    apply (Permutation_NoDup
             (l := Component.label current ::
                   labels (cache w) ++ labels (rest ++ new)));
      [apply Permutation_middle | exact Hnd1].
  - intros c Hin. apply in_app_or in Hin. destruct Hin as [Hin|Hin].
    + apply Hq. right; exact Hin.
    + apply (Himp c). apply Hincl. exact Hin.
  - intros l Hin. unfold labels in Hin. rewrite map_app in Hin.
    apply in_app_or in Hin. simpl in Hin. rewrite ?El in Hin.
    destruct Hin as [Hin|[<-|[]]].
    + apply Hc. exact Hin.
    + exact (in_map Component.label _ _ Hcur).
Qed.

Lemma loop_state_inv (w : world) :
  loop_state join cwd fs root w -> scheduler_inv (components join cwd fs root) w.
Proof.
  induction 1 as [|w w' current rest _ IH Eq Hp]; [exact start_inv|].
  exact (proj1 (process_inv w w' current rest IH Eq Hp)).
Qed.

(** Without a file that imports its own label, each time the loop tests
    its condition the labels discovered so far are those of the queue and
    of the store, none is in both, and none was enqueued twice. *)
Lemma partition_at_loop_test (w : world) :
  loop_state join cwd fs root w ->
  (forall l, In l (enqueued (history w)) <->
             In l (labels (queue w)) \/ In l (labels (cache w))) /\
  (forall l, ~ (In l (labels (queue w)) /\ In l (labels (cache w)))) /\
  NoDup (enqueued (history w)).
Proof.
  intros H. destruct (loop_state_inv w H) as [Henq _ Hnd _ _].
  rewrite Henq. split; [|split].
  - intros l. rewrite in_app_iff. tauto.
  - intros l [Hq Hc]. clear Henq. revert Hnd Hq Hc.
    generalize (labels (queue w)) as q.
    induction (labels (cache w)) as [|x c IH]; intros q Hnd Hq Hc; [exact Hc|].
    simpl in Hnd. inversion Hnd as [|? ? Hx Hnd']; subst.
    destruct Hc as [->|Hc].
    + apply Hx. apply in_or_app. right. exact Hq.
    + exact (IH q Hnd' Hq Hc).
  - exact Hnd.
Qed.

Lemma queue_bound (w : world) :
  scheduler_inv (components join cwd fs root) w ->
  length (cache w) + length (queue w)
    <= length (components join cwd fs root).
Proof.
  intros [_ _ Hnd Hq Hc].
  assert (Hl : length (labels (cache w) ++ labels (queue w))
               <= length (labels (components join cwd fs root))).
  { apply NoDup_incl_length; [exact Hnd|].
    intros l Hl. apply in_app_or in Hl. destruct Hl as [Hl|Hl].
    - apply Hc; exact Hl.
    - unfold labels in Hl. apply in_map_iff in Hl.
      destruct Hl as [c [<- Hin]]. apply in_map. apply Hq. exact Hin. }
  unfold labels in Hl. rewrite length_app, !length_map in Hl. exact Hl.
Qed.

(** The loop ends, normally or by an exception, within as many turns as
    there are components left to store. *)
Lemma drain_total (n : nat) (w : world) :
  scheduler_inv (components join cwd fs root) w ->
  length (components join cwd fs root) - length (cache w) <= n ->
  exists res,
    drain join cwd fs n w = Some res /\
    forall w', res = (Normal tt, w') ->
               scheduler_inv (components join cwd fs root) w' /\
               queue w' = [].
Proof.
  revert w; induction n as [|n IH]; intros w Hinv Hn;
    pose proof (queue_bound w Hinv) as Hb;
    destruct (queue w) as [|current rest] eqn:Eq.
  - exists (Normal tt, w). simpl. rewrite Eq. split; [reflexivity|].
    intros w' E. injection E as <-. auto.
  - exfalso. change (length (current :: rest)) with (S (length rest)) in Hb.
    lia.
  - exists (Normal tt, w). simpl. rewrite Eq. split; [reflexivity|].
    intros w' E. injection E as <-. auto.
  - simpl. rewrite Eq.
    destruct (process join cwd fs current
                (mk_world rest (cache w) (appended w) (history w)))
      as [[[]|e] w1] eqn:Ep.
    + destruct (process_inv w w1 current rest Hinv Eq Ep) as [Hinv' Hlen].
      apply IH; [exact Hinv'|]. lia.
    + exists (Throw e, w1). split; [reflexivity|]. intros w' E. discriminate.
Qed.

End Partition.

Section Scheduler.

Variable join : jsstring -> jsstring -> jsstring.
Variable cwd : jsstring.
Variable fs : list (jsstring * jsstring).
Variable root : component.

Hypothesis Hwf : well_formed join cwd fs root = true.
Hypothesis Hacyclic : acyclic (label_edges join cwd fs root).

Lemma file_of_set (f : jsstring * jsstring) :
  In f fs ->
  component_file join cwd (snd f) = true /\
  forall c, In c (imported join cwd (snd f)) ->
            readable fs (Component.path c) = true.
Proof.
  intros Hf. unfold well_formed in Hwf.
  apply andb_true_iff in Hwf. destruct Hwf as [_ Hall].
  rewrite forallb_forall in Hall. specialize (Hall f Hf).
  apply andb_true_iff in Hall. destruct Hall as [Hc Hr].
  split; [exact Hc|]. intros c Hin.
  rewrite forallb_forall in Hr. apply Hr. exact Hin.
Qed.

Lemma component_readable (c : component) :
  In c (components join cwd fs root) -> readable fs (Component.path c) = true.
Proof.
  intros [<-|Hc].
  - unfold well_formed in Hwf. apply andb_true_iff in Hwf. tauto.
  - apply in_flat_map in Hc. destruct Hc as [f [Hf Hin]].
    apply (file_of_set f Hf). exact Hin.
Qed.

Lemma process_succeeds (w : world) (current : component) :
  In current (components join cwd fs root) ->
  exists w', process join cwd fs current w = (Normal tt, w').
Proof.
  intros Hcur.
  destruct (readable_find fs _ (component_readable current Hcur))
    as [f [Hfind Hf]].
  destruct (file_of_set f Hf) as [Hfile _].
  unfold component_file in Hfile.
  repeat (apply andb_true_iff in Hfile; destruct Hfile as [Hfile ?]).
  destruct (extractors_succeed (snd f) current) as [c1 [c2 [c3 [E1 [E2 [E3 _]]]]]];
    try assumption.
  eexists. unfold process, bind, readTextFile, lift.
  rewrite Hfind, E1, E2, E3.
  rewrite imports_push_all by assumption. unfold cache_push. reflexivity.
Qed.

Lemma process_keeps_inv (w : world) (current : component)
  (rest : list component) :
  scheduler_inv (components join cwd fs root) w -> queue w = current :: rest ->
  exists w',
    process join cwd fs current
      (mk_world rest (cache w) (appended w) (history w)) = (Normal tt, w') /\
    scheduler_inv (components join cwd fs root) w' /\
    length (cache w') = S (length (cache w)).
Proof.
  intros Hinv Eq.
  assert (Hcur : In current (components join cwd fs root)).
  { apply (inv_queue _ _ Hinv). rewrite Eq. left; reflexivity. }
  destruct (process_succeeds
              (mk_world rest (cache w) (appended w) (history w)) current Hcur)
    as [w' Hp].
  exists w'. split; [exact Hp|].
  apply (process_inv join cwd fs root) with (current := current) (rest := rest);
    try assumption.
  intros l. apply acyclic_no_self_edge. exact Hacyclic.
Qed.

Lemma drain_terminates (n : nat) (w : world) :
  scheduler_inv (components join cwd fs root) w ->
  length (components join cwd fs root) - length (cache w) <= n ->
  exists w',
    drain join cwd fs n w = Some (Normal tt, w') /\
    scheduler_inv (components join cwd fs root) w' /\ queue w' = [].
Proof.
  revert w; induction n as [|n IH]; intros w Hinv Hn;
    pose proof (queue_bound join cwd fs root w Hinv) as Hb;
    destruct (queue w) as [|current rest] eqn:Eq.
  - exists w. simpl. rewrite Eq. auto.
  - exfalso. change (length (current :: rest)) with (S (length rest)) in Hb.
    lia.
  - exists w. simpl. rewrite Eq. auto.
  - destruct (process_keeps_inv w current rest Hinv Eq)
      as [w' [Ep [Hinv' Hlen]]].
    simpl. rewrite Eq, Ep. apply IH; [exact Hinv'|]. lia.
Qed.

End Scheduler.

(** ** A component that imports its own label *)

(** C2 fails on the code: the file of [App] in [fs_self_import] imports the
    label [App].  While [App] is being processed it is neither in the queue
    nor in the store, so [imports] enqueues it again; after the first turn
    of the loop the label is in the queue and in the store at once, and the
    build enqueues it twice and inserts it into the store twice. *)
Theorem self_import_is_enqueued_twice :
  let w1 := snd (process sample_join (lit "/w") fs_self_import app_root
                   (mk_world [] [] [] [Enqueued (lit "App")])) in
  labels (queue w1) = [lit "App"] /\
  labels (cache w1) = [lit "App"] /\
  exists r w,
    parse sample_join (lit "/w") fs_self_import 2 app_root vno_init
      = Some (Normal r, w) /\
    enqueued (history w) = [lit "App"; lit "App"] /\
    cached (history w) = [lit "App"; lit "App"] /\
    labels r = [lit "App"; lit "App"].
Proof.
  cbv zeta. split; [vm_compute; reflexivity|].
  split; [vm_compute; reflexivity|].
  eexists. eexists. split; [vm_compute; reflexivity|].
  repeat split.
Qed.

(** ** What [parse] returns *)

Lemma drain_cached
  (join : jsstring -> jsstring -> jsstring) (cwd : jsstring)
  (fs : list (jsstring * jsstring)) (fuel : nat) (w w' : world) :
  cached (history w) = labels (cache w) ->
  drain join cwd fs fuel w = Some (Normal tt, w') ->
  cached (history w') = labels (cache w') /\ queue w' = [].
Proof.
  revert w; induction fuel as [|n IH]; intros w Hc Hd; simpl in Hd.
  - destruct (queue w) eqn:Eq; [|discriminate].
    injection Hd as <-. auto.
  - destruct (queue w) as [|current rest] eqn:Eq.
    + injection Hd as <-. auto.
    + destruct (process join cwd fs current
                  (mk_world rest (cache w) (appended w) (history w)))
        as [[[]|e] w1] eqn:Ep; [|discriminate].
      apply (IH w1); [|exact Hd].
      destruct (process_normal _ _ _ _ _ _ Ep) as [f [c4 [_ [_ Ew]]]].
      destruct (push_all_frame (imported join cwd (snd f))
                  (mk_world rest (cache w) (appended w) (history w)))
        as [E1 [_ E3]].
      subst w1. unfold cache_push. simpl.
      rewrite cached_app, E1, E3. simpl.
      unfold labels in *. rewrite map_app, Hc. reflexivity.
Qed.

(** C10: [build] does not leave the store as it found it: it reverses the
    cache in place, so what [parse] returns after a completed build is the
    store in the reverse of the order in which the records were inserted. *)
Theorem build_reverses_store_in_place :
  (forall w, cache (snd (build w)) = rev (cache w)) /\
  (forall join cwd fs fuel root r w,
     parse join cwd fs fuel root vno_init = Some (Normal r, w) ->
     r = cache w /\ labels r = rev (cached (history w))).
Proof.
  split.
  - intros w. rewrite build_spec. reflexivity.
  - intros join cwd fs fuel root r w. unfold parse, queue_push, vno_init.
    cbn [queue cache appended history app].
    destruct (drain join cwd fs fuel _) as [[[[]|e] w2]|] eqn:Ed;
      try discriminate.
    rewrite build_spec. intros H. injection H as <- <-. simpl.
    split; [reflexivity|].
    destruct (drain_cached join cwd fs fuel
                (mk_world [root] [] [] [Enqueued (Component.label root)])
                w2 eq_refl Ed) as [Hc _].
    rewrite Hc. unfold labels. rewrite map_rev. reflexivity.
Qed.

Lemma build_reverses_store_in_place_witness :
  exists r w,
    parse sample_join (lit "/w") fs_app_child 2 app_root vno_init
      = Some (Normal r, w) /\
    cached (history w) = [lit "App"; lit "Child"] /\
    labels r = [lit "Child"; lit "App"] /\
    r = cache w /\ labels r = rev (cached (history w)).
Proof.
  eexists. eexists. split; [vm_compute; reflexivity|].
  split; [reflexivity|]. split; [reflexivity|].
  refine (proj2 build_reverses_store_in_place sample_join (lit "/w")
            fs_app_child 2 app_root _ _ _).
  vm_compute; reflexivity.
Defined.

(** * Further properties of the code *)

(** ** What the white-space normalisation leaves *)

Lemma concat_split_from (m : matcher) (s seg : jsstring) (k : nat) :
  concat (split_from m s seg k) = rev seg ++ kept m s k.
Proof.
  revert seg k; induction s as [|c s IH]; intros seg k; simpl.
  - reflexivity.
  - destruct k as [|k]; [|apply IH].
    destruct (m (c :: s)) as [[|n]|].
    + destruct seg as [|x seg].
      * rewrite IH. reflexivity.
      * simpl concat. rewrite IH. simpl. rewrite <- app_assoc. reflexivity.
    + simpl. rewrite IH. reflexivity.
    + rewrite IH. simpl. rewrite <- app_assoc. reflexivity.
Qed.

Lemma join_split_kept (m : matcher) (s : jsstring) :
  join_empty (split m s) = kept m s 0.
Proof.
  unfold join_empty, split. destruct s as [|c s].
  - destruct (m []); reflexivity.
  - rewrite concat_split_from. reflexivity.
Qed.

Lemma newline_is_space (c : code_unit) :
  is_newline c = true -> is_space c = true.
Proof.
  unfold is_newline, is_space. intros H. apply N.eqb_eq in H. subst c.
  reflexivity.
Qed.

Lemma kept_whitespace (s : jsstring) :
  kept re_whitespace s 0 = filter (fun c => negb (is_space c)) s.
Proof.
  induction s as [|c s IH]; [reflexivity|].
  simpl. destruct (is_newline c) eqn:En; simpl.
  - rewrite (newline_is_space c En). simpl. exact IH.
  - destruct (is_space c); simpl; rewrite IH; reflexivity.
Qed.

(** X1: the normalisation of [script] and of [style] removes every
    white-space code unit of the section text and keeps all the others in
    their order, also inside string literals of the script; a second
    pass changes nothing. *)
Theorem whitespace_stripping_is_a_filter (t : jsstring) :
  let stripped := join_empty (split re_whitespace t) in
  stripped = filter (fun c => negb (is_space c)) t /\
  join_empty (split re_whitespace stripped) = stripped.
Proof.
  cbv zeta. rewrite !join_split_kept, !kept_whitespace. split; [reflexivity|].
  induction t as [|c t IH]; [reflexivity|].
  simpl. destruct (is_space c) eqn:E; simpl; [exact IH|].
  rewrite E. simpl. rewrite IH. reflexivity.
Qed.

Lemma kept_cons (m : matcher) (c : code_unit) (s : jsstring) :
  kept m (c :: s) 0 =
    match m (c :: s) with
    | Some (S k) => kept m s k
    | _ => c :: kept m s 0
    end.
Proof. reflexivity. Qed.

Lemma re_newline_or_spaces_cons (c : code_unit) (s : jsstring) :
  re_newline_or_spaces (c :: s) =
    if is_newline c then Some 1
    else if 2 <=? run_length is_space (c :: s)
         then Some (run_length is_space (c :: s))
         else None.
Proof. reflexivity. Qed.

Lemma short_run (c : code_unit) (s : jsstring) :
  (2 <=? run_length is_space (c :: s)) = false ->
  is_space c = true ->
  match s with
  | [] => True
  | d :: _ => is_space d = false
  end.
Proof.
  intros Er Es. destruct s as [|d s]; [exact I|].
  simpl in Er. rewrite Es in Er. destruct (is_space d); [discriminate|].
  reflexivity.
Qed.

Lemma kept_tidy (s : jsstring) (k : nat) :
  tidy (kept re_newline_or_spaces s k) = true.
Proof.
  revert k; induction s as [|c s IH]; intros k; [reflexivity|].
  destruct k as [|k]; [|apply IH].
  rewrite kept_cons, re_newline_or_spaces_cons.
  destruct (is_newline c) eqn:En; [apply IH|].
  destruct (2 <=? run_length is_space (c :: s)) eqn:Er.
  - destruct (run_length is_space (c :: s)) as [|n]; [discriminate|]. apply IH.
  - cbn [tidy]. rewrite En, IH. simpl negb. rewrite andb_true_r, andb_true_l.
    destruct (is_space c) eqn:Es; [|reflexivity]. simpl negb.
    rewrite orb_false_l.
    pose proof (short_run c s Er Es) as Hd.
    destruct s as [|d s]; [reflexivity|].
    rewrite kept_cons, re_newline_or_spaces_cons.
    destruct (is_newline d) eqn:End.
    + rewrite (newline_is_space d End) in Hd. discriminate.
    + assert (E0 : run_length is_space (d :: s) = 0)
        by (simpl; rewrite Hd; reflexivity).
      rewrite E0. simpl. rewrite Hd. reflexivity.
Qed.

Lemma tidy_kept (o : jsstring) :
  tidy o = true -> kept re_newline_or_spaces o 0 = o.
Proof.
  induction o as [|c o IH]; intros H; [reflexivity|].
  cbn [tidy] in H. apply andb_true_iff in H. destruct H as [H Ho].
  apply andb_true_iff in H. destruct H as [Hn Hs].
  apply negb_true_iff in Hn.
  rewrite kept_cons, re_newline_or_spaces_cons, Hn.
  assert (Er : (2 <=? run_length is_space (c :: o)) = false).
  { simpl. destruct (is_space c); [|reflexivity].
    simpl in Hs. destruct o as [|d o]; [reflexivity|].
    apply negb_true_iff in Hs. simpl. rewrite Hs. reflexivity. }
  rewrite Er. rewrite IH by exact Ho. reflexivity.
Qed.

Lemma tidy_no_newline (o : jsstring) :
  tidy o = true -> forall c, In c o -> is_newline c = false.
Proof.
  induction o as [|x o IH]; intros H c Hc; [destruct Hc|].
  destruct Hc as [<-|Hc].
  - cbn [tidy] in H. apply andb_true_iff in H. destruct H as [H _].
    apply andb_true_iff in H. destruct H as [H _].
    apply negb_true_iff in H. exact H.
  - apply IH; [|exact Hc]. cbn [tidy] in H. apply andb_true_iff in H. tauto.
Qed.

Lemma kept_drops_white_space_only (s : jsstring) (k : nat) :
  k <= run_length is_space s ->
  filter (fun c => negb (is_space c)) (kept re_newline_or_spaces s k)
  = filter (fun c => negb (is_space c)) s.
Proof.
  revert k; induction s as [|c s IH]; intros k Hk; [reflexivity|].
  destruct k as [|k].
  - rewrite kept_cons, re_newline_or_spaces_cons.
    destruct (is_newline c) eqn:En.
    + cbn [filter]. rewrite (newline_is_space c En). cbn [negb].
      apply IH. lia.
    + destruct (2 <=? run_length is_space (c :: s)) eqn:Er.
      * cbn [run_length] in *. destruct (is_space c) eqn:Es; [|discriminate].
        cbn [filter]. rewrite Es. cbn [negb]. apply IH. lia.
      * cbn [filter]. rewrite IH by lia. reflexivity.
  - cbn [kept]. cbn [run_length] in Hk.
    destruct (is_space c) eqn:Es; [|lia].
    cbn [filter]. rewrite Es. cbn [negb]. apply IH. lia.
Qed.

(** X2: the normalisation of [template] removes white space only, leaves
    no newline and no two white space characters in a row, and leaves a
    text that has neither as it is: a single blank between words stays (as
    in [a b], which the normalisation of [script] would turn into [ab]);
    so normalising its result again changes nothing. *)
Theorem template_normalisation_is_idempotent (t : jsstring) :
  let normal := join_empty (split re_newline_or_spaces t) in
  tidy normal = true /\
  (forall c, In c normal -> is_newline c = false) /\
  join_empty (split re_newline_or_spaces normal) = normal /\
  filter (fun c => negb (is_space c)) normal
    = filter (fun c => negb (is_space c)) t /\
  (tidy t = true -> normal = t).
Proof.
  cbv zeta. rewrite !join_split_kept.
  pose proof (kept_tidy t 0) as H. split; [exact H|]. split; [|split; [|split]].
  - apply tidy_no_newline. exact H.
  - apply tidy_kept. exact H.
  - apply kept_drops_white_space_only. lia.
  - apply tidy_kept.
Qed.

Lemma template_normalisation_is_idempotent_witness :
  join_empty (split re_newline_or_spaces (lit "<p>a b</p>")) = lit "<p>a b</p>"
  /\
  join_empty (split re_whitespace (lit "<p>a b</p>")) = lit "<p>ab</p>".
Proof.
  split; [|reflexivity].
  apply (proj2 (proj2 (proj2 (proj2
           (template_normalisation_is_idempotent (lit "<p>a b</p>")))))).
  reflexivity.
Defined.

(** ** The body of the script *)

Lemma brace_free_not_in (c : code_unit) (s : jsstring) :
  brace_free c s = true -> ~ In c s.
Proof.
  unfold brace_free. intros H. apply absent_not_in.
  apply negb_true_iff. exact H.
Qed.

Lemma indexOf_first (x : code_unit) (a r : jsstring) :
  ~ In x a -> indexOf x (a ++ x :: r) = Z.of_nat (length a).
Proof.
  induction a as [|y a IH]; intros H.
  - simpl. rewrite N.eqb_refl. reflexivity.
  - simpl app. cbn [indexOf].
    destruct (N.eqb_spec y x) as [E|_].
    + exfalso. apply H. left. exact E.
    + rewrite IH by (intros Hin; apply H; right; exact Hin).
      destruct (Z.ltb_spec (Z.of_nat (length a)) 0); [lia|].
      simpl length. lia.
Qed.

Lemma lastIndexOf_last (x : code_unit) (p c : jsstring) :
  ~ In x c -> lastIndexOf x (p ++ x :: c) = Z.of_nat (length p).
Proof.
  intros H. induction p as [|y p IH].
  - simpl app. cbn [lastIndexOf]. rewrite (lastIndexOf_absent x c H).
    simpl. rewrite N.eqb_refl. reflexivity.
  - simpl app. cbn [lastIndexOf]. rewrite IH.
    destruct (Z.leb_spec 0 (Z.of_nat (length p))); [|lia].
    simpl length. lia.
Qed.

Lemma slice_middle (a b c : jsstring) :
  slice (a ++ b ++ c) (Z.of_nat (length a)) (Z.of_nat (length a + length b)) = b.
Proof.
  unfold slice. rewrite !length_app.
  destruct (Z.ltb_spec (Z.of_nat (length a)) 0); [lia|].
  destruct (Z.ltb_spec (Z.of_nat (length a + length b)) 0); [lia|].
  replace (Z.to_nat (Z.min (Z.of_nat (length a))
                       (Z.of_nat (length a + (length b + length c)))))
    with (length a) by lia.
  replace (Z.to_nat _) with (length b) by lia.
  rewrite skipn_app, skipn_all, Nat.sub_diag. simpl.
  rewrite firstn_app, firstn_all, Nat.sub_diag. simpl.
  apply app_nil_r.
Qed.

(** X3: when the script text, stripped of white space, has its first
    opening brace after [a] and its last closing brace before [c], [script]
    stores exactly what stands between the two braces: the prefix [a] (an
    [export default], the import lines) and the suffix [c] are dropped. *)
Theorem script_between_braces
  (data t a b c : jsstring) (current : component) :
  second_segment (re_tag (lit "script")) data = Some t ->
  join_empty (split re_whitespace t) = a ++ lbrace :: b ++ rbrace :: c ->
  brace_free lbrace a = true -> brace_free rbrace c = true ->
  script data current = Normal (set_script current b).
Proof.
  intros Ht Es Ha Hc. unfold script. rewrite Ht. cbv zeta. rewrite Es.
  apply brace_free_not_in in Ha, Hc.
  rewrite (indexOf_first lbrace a (b ++ rbrace :: c) Ha).
  replace (a ++ lbrace :: b ++ rbrace :: c)
    with ((a ++ lbrace :: b) ++ rbrace :: c)
    by (rewrite <- app_assoc; reflexivity).
  rewrite (lastIndexOf_last rbrace (a ++ lbrace :: b) c Hc).
  replace ((a ++ lbrace :: b) ++ rbrace :: c)
    with ((a ++ [lbrace]) ++ b ++ rbrace :: c)
    by (rewrite <- !app_assoc; reflexivity).
  replace (Z.of_nat (length a) + 1)%Z
    with (Z.of_nat (length (a ++ [lbrace])))
    by (rewrite length_app; simpl; lia).
  replace (Z.of_nat (length (a ++ lbrace :: b)))
    with (Z.of_nat (length (a ++ [lbrace]) + length b))
    by (rewrite !length_app; simpl; lia).
  rewrite slice_middle. reflexivity.
Qed.

Lemma script_between_braces_witness :
  script (sfc "import Child from './Child.vue'") app_root
  = Normal (set_script app_root (lit "name:'x'")).
Proof.
  apply (script_between_braces
           (sfc "import Child from './Child.vue'")
           (lit nl ++ lit "import Child from './Child.vue'" ++ lit nl ++
            lit "export default {name: 'x'}" ++ lit nl)
           (lit "importChildfrom'./Child.vue'exportdefault")
           (lit "name:'x'") [] app_root); reflexivity.
Defined.

(** ** A section tag with attributes *)

Lemma re_tag_attribute (name rest : jsstring) (c : code_unit) :
  In name section_names -> c <> 62%N ->
  re_tag name (langle :: name ++ c :: rest) = None.
Proof.
  intros Hn Hc. apply N.eqb_neq in Hc.
  rewrite N.eqb_sym in Hc.
  destruct Hn as [<-|[<-|[<-|[]]]]; simpl; unfold re_literal; simpl;
    change (match c with
            | 0%N => false
            | N.pos q => (62 =? q)%positive
            end) with (N.eqb 62 c);
    rewrite Hc; reflexivity.
Qed.

(** X4: an opening tag that carries an attribute, as in [<style scoped>],
    does not match the delimiter of its section; and when the closing tag
    is the only match in the source, the span taken is the text that
    follows the closing tag, not the body of the section. *)
Theorem attributes_hide_the_opening_tag (name : jsstring) :
  In name section_names ->
  (forall (c : code_unit) (rest : jsstring),
     c <> 62%N -> re_tag name (langle :: name ++ c :: rest) = None) /\
  (forall a post : jsstring,
     unmatched (re_tag name) a (close_tag name ++ post) = true ->
     occurs (re_tag name) post = false ->
     second_segment (re_tag name) (a ++ close_tag name ++ post) = Some post).
Proof.
  intros Hn. split.
  - intros c rest Hc. apply re_tag_attribute; assumption.
  - intros a post Ha Hp. unfold second_segment.
    assert (E : split (re_tag name) (a ++ close_tag name ++ post)
                = split_from (re_tag name) (a ++ close_tag name ++ post) [] 0)
      by (destruct a; reflexivity).
    rewrite E, split_from_unmatched by exact Ha.
    unfold close_tag in *. simpl app.
    rewrite (split_from_match (re_tag name) langle (47%N :: name ++ lit ">")
               post).
    + rewrite split_from_no_occurrence by exact Hp. reflexivity.
    + exact (re_tag_close name post Hn).
Qed.

Lemma attributes_hide_the_opening_tag_witness :
  re_tag (lit "style") (lit "<style scoped>p{}</style>") = None /\
  style scoped_style_source app_root = Normal (set_style app_root []).
Proof.
  destruct (attributes_hide_the_opening_tag (lit "style"))
    as [Hattr Hspan]; [right; right; left; reflexivity|].
  split.
  - apply (Hattr 32%N (lit "scoped>p{}</style>")). discriminate.
  - unfold style.
    change scoped_style_source
      with (lit "<template><p>x</p></template><style scoped>p{}" ++
            close_tag (lit "style") ++ []).
    rewrite (Hspan (lit "<template><p>x</p></template><style scoped>p{}") []);
      reflexivity.
Defined.

(** ** What [imports] does to the queue *)

Lemma push_all_new (cs : list component) (w : world) :
  exists new,
    push_all cs w =
      mk_world (queue w ++ new) (cache w) (appended w)
        (history w ++ map (fun c => Enqueued (Component.label c)) new) /\
    incl new cs /\
    NoDup (labels new) /\
    (forall c, In c new ->
               ~ In (Component.label c) (labels (cache w)) /\
               ~ In (Component.label c) (labels (queue w))) /\
    (forall c, In c cs ->
               In (Component.label c)
                 (labels (cache w) ++ labels (queue w ++ new))).
Proof.
  revert w; induction cs as [|c cs IH]; intros w.
  - exists []. simpl. rewrite !app_nil_r. destruct w. simpl.
    split; [reflexivity|]. split; [apply incl_refl|].
    split; [constructor|]. split; intros c [].
  - unfold push_all. simpl fold_left. fold (push_all cs (push_new c w)).
    unfold push_new.
    destruct (some_label (Component.label c) (cache w)) eqn:Ec; simpl.
    { destruct (IH w) as [new [E [Hi [Hn [Hu Hk]]]]].
      exists new. repeat split; auto; try (apply (Hu _ H)).
      - apply incl_tl; exact Hi.
      - intros x [<-|Hx]; [|apply Hk; exact Hx].
        apply in_or_app. left. apply some_label_In. exact Ec. }
    destruct (some_label (Component.label c) (queue w)) eqn:Eq; simpl.
    { destruct (IH w) as [new [E [Hi [Hn [Hu Hk]]]]].
      exists new. repeat split; auto; try (apply (Hu _ H)).
      - apply incl_tl; exact Hi.
      - intros x [<-|Hx]; [|apply Hk; exact Hx].
        apply in_or_app. right. unfold labels. rewrite map_app.
        apply in_or_app. left. apply some_label_In. exact Eq. }
    apply some_label_not_In in Ec, Eq.
    destruct (IH (mk_world (queue w ++ [c]) (cache w) (appended w)
                    (history w ++ [Enqueued (Component.label c)])))
      as [new [E [Hi [Hn [Hu Hk]]]]].
    simpl in E, Hu, Hk.
    exists (c :: new). rewrite E. simpl. rewrite <- !app_assoc. simpl.
    split; [reflexivity|]. split; [|split; [|split]].
    + intros x [<-|Hx]; [left; reflexivity | right; apply Hi; exact Hx].
    + constructor; [|exact Hn]. intros Hin.
      unfold labels in Hin. apply in_map_iff in Hin.
      destruct Hin as [x [Ex Hx]]. destruct (Hu x Hx) as [_ Hq].
      apply Hq. unfold labels. rewrite map_app. apply in_or_app. right.
      simpl. left. symmetry. exact Ex.
    + intros x [<-|Hx]; [split; assumption|].
      destruct (Hu x Hx) as [H1 H2]. split; [exact H1|].
      intros Hin. apply H2. unfold labels. rewrite map_app.
      apply in_or_app. left. exact Hin.
    + intros x [<-|Hx].
      * apply in_or_app. right. unfold labels. rewrite map_app.
        apply in_or_app. right. left. reflexivity.
      * specialize (Hk x Hx). rewrite <- app_assoc in Hk. exact Hk.
Qed.

Lemma imported_bare
  (join : jsstring -> jsstring -> jsstring) (cwd data : jsstring)
  (c : component) :
  In c (imported join cwd data) ->
  c = descriptor (Component.label c) (Component.path c).
Proof.
  unfold imported, imported_of. intros H. apply in_flat_map in H.
  destruct H as [item [_ H]]. unfold import_component in H.
  destruct (split sep_space item) as [|t0 [|l [|t2 [|p rest]]]];
    simpl in H; try contradiction.
  destruct H as [<-|[]]. reflexivity.
Qed.

(** X5: a call of [imports] that completes leaves the store and the output
    untouched and only appends to the queue: bare descriptors taken from
    the import lines of the file, under labels that were neither in the
    store nor in the queue, and no label twice (of two import lines with the
    same label only the first is enqueued). *)
Theorem imports_only_enqueues_new_labels
  (join : jsstring -> jsstring -> jsstring) (cwd data : jsstring)
  (w w' : world) :
  imports join cwd data w = (Normal tt, w') ->
  cache w' = cache w /\ appended w' = appended w /\
  exists new,
    queue w' = queue w ++ new /\
    incl new (imported join cwd data) /\
    NoDup (labels new) /\
    forall c, In c new ->
              c = descriptor (Component.label c) (Component.path c) /\
              ~ In (Component.label c) (labels (cache w)) /\
              ~ In (Component.label c) (labels (queue w)).
Proof.
  intros H. apply imports_normal in H.
  destruct (push_all_new (imported join cwd data) w)
    as [new [E [Hi [Hn [Hu _]]]]].
  rewrite E in H. subst w'. simpl. split; [reflexivity|].
  split; [reflexivity|]. exists new. repeat split; auto; try (apply (Hu _ H)).
  apply (imported_bare join cwd data). apply Hi. exact H.
Qed.

Lemma imports_only_enqueues_new_labels_witness :
  exists w',
    imports sample_join (lit "/w")
      (lit "import A from './A.vue'" ++ lit nl ++ lit "import A from './B.vue'")
      vno_init = (Normal tt, w') /\
    queue w' = [descriptor (lit "A") (lit "/w/A.vue")] /\
    cache w' = cache vno_init /\ appended w' = appended vno_init.
Proof.
  eexists. split; [vm_compute; reflexivity|]. split; [reflexivity|].
  destruct (imports_only_enqueues_new_labels sample_join (lit "/w")
              (lit "import A from './A.vue'" ++ lit nl ++
               lit "import A from './B.vue'")
              vno_init _ eq_refl) as [Hc [Ha _]].
  split; [exact Hc | exact Ha].
Defined.

Lemma imports_normal_ok
  (join : jsstring -> jsstring -> jsstring) (cwd data : jsstring)
  (w w' : world) :
  imports join cwd data w = (Normal tt, w') ->
  forallb (fun item => match import_component join cwd item with
                       | Normal _ => true
                       | Throw _ => false
                       end) (import_lines data) = true.
Proof.
  unfold imports. generalize (import_lines data) as items.
  intros items; revert w.
  induction items as [|item items IH]; intros w H; [reflexivity|].
  simpl forEach in H. unfold bind at 1 in H. unfold bind at 1 in H.
  unfold lift at 1 in H. simpl forallb.
  destruct (import_component join cwd item) as [c|e]; [|discriminate].
  destruct (negb (some_label (Component.label c) (cache w)) &&
            negb (some_label (Component.label c) (queue w))).
  - unfold queue_push at 1 in H. exact (IH _ H).
  - exact (IH _ H).
Qed.

Lemma push_all_known (cs : list component) (w : world) :
  (forall c, In c cs ->
             In (Component.label c) (labels (cache w) ++ labels (queue w))) ->
  push_all cs w = w.
Proof.
  induction cs as [|c cs IH]; intros H; [reflexivity|].
  unfold push_all. simpl fold_left. fold (push_all cs (push_new c w)).
  assert (E : push_new c w = w).
  { unfold push_new. specialize (H c (or_introl eq_refl)).
    apply in_app_or in H. destruct H as [H|H]; apply some_label_In in H;
      rewrite H; simpl; rewrite ?andb_false_r; reflexivity. }
  rewrite E. apply IH. intros x Hx. apply H. right. exact Hx.
Qed.

(** X6: [imports] is idempotent: running it again on the same source right
    after a run that completed enqueues nothing and leaves the world as it
    is. *)
Theorem imports_twice_is_imports_once
  (join : jsstring -> jsstring -> jsstring) (cwd data : jsstring)
  (w w1 : world) :
  imports join cwd data w = (Normal tt, w1) ->
  imports join cwd data w1 = (Normal tt, w1).
Proof.
  intros H. rewrite (imports_push_all join cwd data w1)
    by exact (imports_normal_ok join cwd data w w1 H).
  apply imports_normal in H.
  destruct (push_all_new (imported join cwd data) w)
    as [new [E [_ [_ [_ Hk]]]]].
  rewrite E in H. subst w1. f_equal. apply push_all_known. exact Hk.
Qed.

Lemma imports_twice_is_imports_once_witness :
  exists w1,
    imports sample_join (lit "/w") (sfc "import Child from './Child.vue'")
      vno_init = (Normal tt, w1) /\
    labels (queue w1) = [lit "Child"] /\
    imports sample_join (lit "/w") (sfc "import Child from './Child.vue'")
      w1 = (Normal tt, w1).
Proof.
  eexists. split; [vm_compute; reflexivity|]. split; [reflexivity|].
  apply (imports_twice_is_imports_once sample_join (lit "/w")
           (sfc "import Child from './Child.vue'") vno_init).
  vm_compute; reflexivity.
Defined.

Lemma short_line_throws
  (join : jsstring -> jsstring -> jsstring) (cwd item : jsstring) :
  length (split sep_space item) < 4 ->
  import_component join cwd item = Throw TypeError.
Proof.
  unfold import_component.
  destruct (split sep_space item) as [|t0 [|l [|t2 [|p rest]]]];
    simpl; intros H; try reflexivity. lia.
Qed.

(** X7: an import line with fewer than four tokens makes [imports] throw a
    TypeError, and what the import lines before it enqueued stays enqueued:
    every label they name is in the store or in the queue when the
    exception leaves [imports]; the lines after it are not looked at. *)
Theorem imports_throws_after_enqueueing
  (join : jsstring -> jsstring -> jsstring) (cwd data bad : jsstring)
  (good rest : list jsstring) (w : world) :
  import_lines data = good ++ bad :: rest ->
  forallb (fun item => match import_component join cwd item with
                       | Normal _ => true
                       | Throw _ => false
                       end) good = true ->
  length (split sep_space bad) < 4 ->
  exists w',
    imports join cwd data w = (Throw TypeError, w') /\
    w' = push_all (imported_of join cwd good) w /\
    cache w' = cache w /\
    forall c, In c (imported_of join cwd good) ->
              In (Component.label c) (labels (cache w') ++ labels (queue w')).
Proof.
  intros El Hg Hb. exists (push_all (imported_of join cwd good) w).
  split; [|split; [reflexivity|]].
  - unfold imports. rewrite El. clear El. revert w.
    induction good as [|item good IH]; intros w.
    + simpl forEach. unfold bind at 1. unfold bind at 1. unfold lift at 1.
      rewrite (short_line_throws join cwd bad Hb). reflexivity.
    + simpl in Hg. apply andb_true_iff in Hg. destruct Hg as [Hi Hg].
      simpl app. simpl forEach. unfold bind at 1. unfold bind at 1.
      unfold lift at 1. unfold imported_of. simpl flat_map.
      destruct (import_component join cwd item) as [c|e]; [|discriminate].
      unfold push_all. rewrite fold_left_app. simpl fold_left at 2.
      unfold push_new at 2.
      destruct (negb (some_label (Component.label c) (cache w)) &&
                negb (some_label (Component.label c) (queue w))).
      * unfold queue_push at 1. simpl snd. apply IH. exact Hg.
      * apply IH. exact Hg.
  - destruct (push_all_new (imported_of join cwd good) w)
      as [new [E [_ [_ [_ Hk]]]]].
    rewrite E. simpl. split; [reflexivity|]. exact Hk.
Qed.

Lemma imports_throws_after_enqueueing_witness :
  exists w',
    imports sample_join (lit "/w") two_imports_source vno_init
      = (Throw TypeError, w') /\
    queue w' = [descriptor (lit "A") (lit "/w/A.vue")].
Proof.
  destruct (imports_throws_after_enqueueing sample_join (lit "/w")
              two_imports_source (lit "import B")
              [lit "import A from './A.vue'"] [] vno_init)
    as [w' [E [Ew _]]].
  - reflexivity.
  - reflexivity.
  - vm_compute. lia.
  - exists w'. split; [exact E|]. rewrite Ew. reflexivity.
Defined.

Lemma quote_free_no_occurrence (p : jsstring) :
  quote_free p = true -> occurs re_quote p = false.
Proof.
  induction p as [|c p IH]; intros H; [reflexivity|].
  simpl in H. apply andb_true_iff in H. destruct H as [Hc Hp].
  apply negb_true_iff in Hc. simpl. rewrite Hc. apply IH. exact Hp.
Qed.

(** X8: when the fourth token of an import line holds no quote character,
    nothing is thrown: the path handed to [locate] is [undefined], and the
    component is enqueued with the path of the text [undefined] under the
    working directory. *)
Theorem unquoted_path_is_undefined
  (join : jsstring -> jsstring -> jsstring) (cwd item t0 label t2 p : jsstring)
  (rest : list jsstring) :
  split sep_space item = t0 :: label :: t2 :: p :: rest ->
  quote_free p = true ->
  import_component join cwd item
  = Normal (descriptor label (join cwd (lit "undefined"))).
Proof.
  intros Hs Hq. unfold import_component. rewrite Hs.
  rewrite (split_no_occurrence re_quote p (quote_free_no_occurrence p Hq)).
  reflexivity.
Qed.

Lemma unquoted_path_is_undefined_witness :
  import_component sample_join (lit "/w") (lit "import A from ./A.vue")
  = Normal (descriptor (lit "A") (lit "/w/undefined")).
Proof.
  apply (unquoted_path_is_undefined sample_join (lit "/w")
           (lit "import A from ./A.vue") (lit "import") (lit "A") (lit "from")
           (lit "./A.vue") []); reflexivity.
Defined.

(** ** [build] called again *)

(** X9: [build] is not idempotent.  A second call puts the store back in
    the order of insertion and appends every fragment once more, this time
    in the order of insertion; the queue stays as it is. *)
Theorem build_twice (w : world) :
  let w2 := snd (build (snd (build w))) in
  cache w2 = cache w /\
  appended w2 =
    appended w ++ map request (rev (cache w)) ++ map request (cache w) /\
  queue w2 = queue w.
Proof.
  cbv zeta. rewrite !build_spec. simpl.
  rewrite rev_involutive, <- app_assoc. auto.
Qed.

(** ** What a build stores and writes, for every import graph *)

Lemma imports_appended
  (join : jsstring -> jsstring -> jsstring) (cwd data : jsstring) (w : world) :
  appended (snd (imports join cwd data w)) = appended w.
Proof.
  unfold imports. generalize (import_lines data) as items.
  intros items; revert w.
  induction items as [|item items IH]; intros w; [reflexivity|].
  simpl forEach. unfold bind at 1. unfold bind at 1. unfold lift at 1.
  destruct (import_component join cwd item) as [c|e]; [|reflexivity].
  destruct (negb (some_label (Component.label c) (cache w)) &&
            negb (some_label (Component.label c) (queue w))).
  - unfold queue_push at 1. rewrite IH. reflexivity.
  - apply IH.
Qed.

Lemma process_appended
  (join : jsstring -> jsstring -> jsstring) (cwd : jsstring)
  (fs : list (jsstring * jsstring)) (current : component) (w : world) :
  appended (snd (process join cwd fs current w)) = appended w.
Proof.
  unfold process, bind, readTextFile, lift.
  destruct (find _ fs) as [f|]; [|reflexivity].
  destruct (template (snd f) current) as [c1|]; [|reflexivity].
  destruct (script (snd f) c1) as [c2|]; [|reflexivity].
  destruct (style (snd f) c2) as [c3|]; [|reflexivity].
  pose proof (imports_appended join cwd (snd f) w) as H.
  destruct (imports join cwd (snd f) w) as [[u|e] w2]; simpl in H.
  - unfold cache_push. simpl. exact H.
  - simpl. exact H.
Qed.

Lemma instance_fields (c : component) :
  Component.label (instance c) = Component.label c /\
  Component.path (instance c) = Component.path c /\
  Component.template (instance c) = Component.template c /\
  Component.script (instance c) = Component.script c /\
  Component.style (instance c) = Component.style c /\
  Component.instance (instance c) =
    Some (if str_eqb (Component.label c) (lit "App")
          then root_form (Component.label c)
                 (to_str (Component.template c)) (to_str (Component.script c))
          else named_form (Component.label c)
                 (to_str (Component.template c)) (to_str (Component.script c))).
Proof.
  unfold instance. destruct (str_eqb (Component.label c) (lit "App"));
    repeat split; reflexivity.
Qed.

Lemma extractors_finalize (data : jsstring) (c c1 c2 c3 : component) :
  template data c = Normal c1 -> script data c1 = Normal c2 ->
  style data c2 = Normal c3 ->
  finalized (instance c3) /\
  Component.label (instance c3) = Component.label c /\
  Component.path (instance c3) = Component.path c.
Proof.
  unfold template, script, style.
  destruct (second_segment (re_tag (lit "template")) data) as [t|];
    [|discriminate].
  destruct (second_segment (re_tag (lit "script")) data) as [s|];
    [|discriminate].
  destruct (second_segment (re_tag (lit "style")) data) as [y|];
    [|discriminate].
  intros E1 E2 E3. injection E1 as <-. injection E2 as <-. injection E3 as <-.
  match goal with |- finalized (instance ?x) /\ _ => set (c3 := x) end.
  destruct (instance_fields c3) as [Hl [Hp [Ht [Hs [Hy Hi]]]]].
  split; [|split; [rewrite Hl; reflexivity | rewrite Hp; reflexivity]].
  unfold finalized. rewrite Hl, Ht, Hs, Hy, Hi.
  do 3 eexists. repeat split.
Qed.

Lemma process_stores
  (join : jsstring -> jsstring -> jsstring) (cwd : jsstring)
  (fs : list (jsstring * jsstring)) (current : component) (w w' : world) :
  process join cwd fs current w = (Normal tt, w') ->
  exists c4 new,
    w' = mk_world (queue w ++ new) (cache w ++ [c4]) (appended w)
           (history w ++ map (fun c => Enqueued (Component.label c)) new ++
            [Cached (Component.label c4)]) /\
    finalized c4 /\
    Component.label c4 = Component.label current /\
    Component.path c4 = Component.path current.
Proof.
  unfold process, bind, readTextFile, lift. intros H.
  destruct (find _ fs) as [f|] eqn:Hfind; [|discriminate].
  destruct (template (snd f) current) as [c1|] eqn:E1; [|discriminate].
  destruct (script (snd f) c1) as [c2|] eqn:E2; [|discriminate].
  destruct (style (snd f) c2) as [c3|] eqn:E3; [|discriminate].
  destruct (imports join cwd (snd f) w) as [[[]|e] w2] eqn:Ei; [|discriminate].
  apply imports_normal in Ei.
  destruct (push_all_new (imported join cwd (snd f)) w) as [new [E _]].
  rewrite E in Ei. subst w2.
  destruct (extractors_finalize _ _ _ _ _ E1 E2 E3) as [Hf [Hl Hp]].
  exists (instance c3), new. unfold cache_push in H. simpl in H.
  injection H as <-. rewrite <- app_assoc. auto.
Qed.

Lemma enqueued_of_pushes (new : list component) :
  enqueued (map (fun c => Enqueued (Component.label c)) new) = labels new.
Proof.
  induction new as [|c new IH]; simpl; [reflexivity|]. rewrite IH; reflexivity.
Qed.

Lemma cached_of_pushes (new : list component) :
  cached (map (fun c => Enqueued (Component.label c)) new) = [].
Proof. induction new as [|c new IH]; simpl; [reflexivity|exact IH]. Qed.

Lemma start_run_inv (root : component) :
  run_inv root (mk_world [root] [] [] [Enqueued (Component.label root)]).
Proof.
  constructor; simpl; try reflexivity; [constructor|].
  exists root, []. auto.
Qed.

Lemma process_run_inv
  (join : jsstring -> jsstring -> jsstring) (cwd : jsstring)
  (fs : list (jsstring * jsstring)) (root current : component)
  (rest : list component) (w w' : world) :
  run_inv root w -> queue w = current :: rest ->
  process join cwd fs current
    (mk_world rest (cache w) (appended w) (history w)) = (Normal tt, w') ->
  run_inv root w'.
Proof.
  intros [Henq Hcached Happ Hfin [c0 [rest0 [Hfirst [Hl0 Hp0]]]]] Eq Hp.
  rewrite Eq in *.
  destruct (process_stores _ _ _ _ _ _ Hp) as [c4 [new [Ew [Hf [Hl Hpath]]]]].
  simpl in Ew. subst w'. constructor; simpl.
  - rewrite !enqueued_app, Henq, enqueued_of_pushes. simpl.
    rewrite app_nil_r. unfold labels. rewrite !map_app. simpl.
    rewrite Hl, <- !app_assoc. reflexivity.
  - rewrite !cached_app, Hcached, cached_of_pushes. simpl.
    unfold labels. rewrite map_app. reflexivity.
  - exact Happ.
  - apply Forall_app. split; [exact Hfin|]. constructor; [exact Hf|constructor].
  - destruct (cache w) as [|x cs].
    + simpl in Hfirst. injection Hfirst as <- <-.
      exists c4, (rest ++ new). simpl. split; [reflexivity|].
      split; congruence.
    + simpl in Hfirst. injection Hfirst as <- _.
      exists x, ((cs ++ [c4]) ++ rest ++ new). simpl. auto.
Qed.

Lemma drain_run_inv
  (join : jsstring -> jsstring -> jsstring) (cwd : jsstring)
  (fs : list (jsstring * jsstring)) (root : component)
  (fuel : nat) (w w' : world) (r : completion unit) :
  run_inv root w ->
  drain join cwd fs fuel w = Some (r, w') ->
  appended w' = [] /\
  (r = Normal tt -> run_inv root w' /\ queue w' = []).
Proof.
  revert w; induction fuel as [|n IH]; intros w Hinv Hd; simpl in Hd.
  - destruct (queue w) eqn:Eq; [|discriminate].
    injection Hd as <- <-. split; [apply (run_appended _ _ Hinv)|auto].
  - destruct (queue w) as [|current rest] eqn:Eq.
    + injection Hd as <- <-. split; [apply (run_appended _ _ Hinv)|auto].
    + pose proof (process_appended join cwd fs current
                    (mk_world rest (cache w) (appended w) (history w))) as Ha.
      destruct (process join cwd fs current
                  (mk_world rest (cache w) (appended w) (history w)))
        as [[[]|e] w1] eqn:Ep.
      * apply (IH w1); [|exact Hd].
        exact (process_run_inv join cwd fs root current rest w w1 Hinv Eq Ep).
      * injection Hd as <- <-. simpl in Ha. rewrite Ha.
        split; [apply (run_appended _ _ Hinv)|discriminate].
Qed.

Lemma parse_normal
  (join : jsstring -> jsstring -> jsstring) (cwd : jsstring)
  (fs : list (jsstring * jsstring)) (fuel : nat) (root : component)
  (r : list component) (w : world) :
  parse join cwd fs fuel root vno_init = Some (Normal r, w) ->
  exists w2,
    run_inv root w2 /\ queue w2 = [] /\
    r = rev (cache w2) /\
    w = mk_world [] (rev (cache w2)) (map request (rev (cache w2)))
          (history w2).
Proof.
  unfold parse, queue_push, vno_init.
  cbn [queue cache appended history app].
  destruct (drain join cwd fs fuel _) as [[[[]|e] w2]|] eqn:Ed;
    try discriminate.
  rewrite build_spec. intros H. injection H as <- <-.
  destruct (drain_run_inv join cwd fs root fuel _ w2 (Normal tt)
              (start_run_inv root) Ed) as [Ha Hn].
  destruct (Hn eq_refl) as [Hinv Hq].
  exists w2. rewrite Hq, Ha. auto.
Qed.

(** X10: every record of the store that [parse] returns is complete: its
    template, script and style were extracted and its fragment is the one
    [instance] builds from its own label, template and script; no record is
    stored half processed. *)
Theorem parse_returns_finalized_records
  (join : jsstring -> jsstring -> jsstring) (cwd : jsstring)
  (fs : list (jsstring * jsstring)) (fuel : nat) (root : component)
  (r : list component) (w : world) :
  parse join cwd fs fuel root vno_init = Some (Normal r, w) ->
  Forall finalized r.
Proof.
  intros H. destruct (parse_normal _ _ _ _ _ _ _ H) as [w2 [Hinv [_ [-> _]]]].
  apply Forall_rev. exact (run_finalized _ _ Hinv).
Qed.

Lemma parse_returns_finalized_records_witness :
  exists r w,
    parse sample_join (lit "/w") fs_app_child 2 app_root vno_init
      = Some (Normal r, w) /\
    Forall finalized r.
Proof.
  eexists. eexists. split; [vm_compute; reflexivity|].
  refine (parse_returns_finalized_records sample_join (lit "/w") fs_app_child
            2 app_root _ _ _).
  vm_compute; reflexivity.
Defined.

(** X11: the store is filled first in, first out: for every import graph,
    cyclic or not, the labels of the store that [parse] returns are the
    labels in the order in which they were enqueued (the root first, then
    breadth first along the imports), reversed. *)
Theorem parse_returns_enqueue_order_reversed
  (join : jsstring -> jsstring -> jsstring) (cwd : jsstring)
  (fs : list (jsstring * jsstring)) (fuel : nat) (root : component)
  (r : list component) (w : world) :
  parse join cwd fs fuel root vno_init = Some (Normal r, w) ->
  labels r = rev (enqueued (history w)).
Proof.
  intros H. destruct (parse_normal _ _ _ _ _ _ _ H) as [w2 [Hinv [Hq [-> ->]]]].
  simpl. rewrite (run_enqueued _ _ Hinv), Hq. simpl. rewrite app_nil_r.
  unfold labels. rewrite map_rev. reflexivity.
Qed.

Lemma parse_returns_enqueue_order_reversed_witness :
  exists r w,
    parse sample_join (lit "/w") fs_self_import 2 app_root vno_init
      = Some (Normal r, w) /\
    enqueued (history w) = [lit "App"; lit "App"] /\
    labels r = rev (enqueued (history w)).
Proof.
  eexists. eexists. split; [vm_compute; reflexivity|].
  split; [reflexivity|].
  refine (parse_returns_enqueue_order_reversed sample_join (lit "/w")
            fs_self_import 2 app_root _ _ _).
  vm_compute; reflexivity.
Defined.

(** X12: a completed build from the fresh object has issued exactly one
    append request per record of the returned store, in the order of that
    store, and the last one is the fragment of the root: the root instance
    is written after the fragments of everything discovered from it. *)
Theorem root_fragment_is_appended_last
  (join : jsstring -> jsstring -> jsstring) (cwd : jsstring)
  (fs : list (jsstring * jsstring)) (fuel : nat) (root : component)
  (r : list component) (w : world) :
  parse join cwd fs fuel root vno_init = Some (Normal r, w) ->
  appended w = map request r /\
  exists front c,
    r = front ++ [c] /\
    Component.label c = Component.label root /\
    Component.path c = Component.path root.
Proof.
  intros H. destruct (parse_normal _ _ _ _ _ _ _ H) as [w2 [Hinv [Hq [-> ->]]]].
  split; [reflexivity|].
  destruct (run_first _ _ Hinv) as [c [rest [E [Hl Hp]]]].
  rewrite Hq, app_nil_r in E. rewrite E. simpl.
  exists (rev rest), c. auto.
Qed.

Lemma root_fragment_is_appended_last_witness :
  exists r w,
    parse sample_join (lit "/w") fs_app_child 2 app_root vno_init
      = Some (Normal r, w) /\
    labels r = [lit "Child"; lit "App"] /\
    appended w = map request r.
Proof.
  eexists. eexists. split; [vm_compute; reflexivity|].
  split; [reflexivity|].
  refine (proj1 (root_fragment_is_appended_last sample_join (lit "/w")
                   fs_app_child 2 app_root _ _ _)).
  vm_compute; reflexivity.
Defined.

(** X13: a build that ends by an exception (a file that cannot be read, a
    missing section, a short import line) has appended nothing to the
    output file: [build] runs only after the loop has emptied the queue. *)
Theorem failed_parse_appends_nothing
  (join : jsstring -> jsstring -> jsstring) (cwd : jsstring)
  (fs : list (jsstring * jsstring)) (fuel : nat) (root : component)
  (e : error) (w : world) :
  parse join cwd fs fuel root vno_init = Some (Throw e, w) ->
  appended w = [].
Proof.
  unfold parse, queue_push, vno_init.
  cbn [queue cache appended history app].
  destruct (drain join cwd fs fuel _) as [[[[]|e'] w2]|] eqn:Ed;
    try discriminate.
  - rewrite build_spec. discriminate.
  - intros H. injection H as <- <-.
    exact (proj1 (drain_run_inv join cwd fs root fuel _ w2 (Throw e')
                    (start_run_inv root) Ed)).
Qed.

Lemma failed_parse_appends_nothing_witness :
  exists w,
    parse sample_join (lit "/w") fs_missing_child 2 app_root vno_init
      = Some (Throw NotFound, w) /\
    labels (cache w) = [lit "App"] /\
    appended w = [].
Proof.
  eexists. split; [vm_compute; reflexivity|]. split; [reflexivity|].
  refine (failed_parse_appends_nothing sample_join (lit "/w") fs_missing_child
            2 app_root NotFound _ _).
  vm_compute; reflexivity.
Defined.

(** ** Termination on every finite set of files *)

Lemma some_label_app (l : jsstring) (a b : list component) :
  some_label l (a ++ b) = some_label l a || some_label l b.
Proof. unfold some_label. apply existsb_app. Qed.

Lemma filter_drop_one (Q : jsstring -> bool) (l : jsstring)
  (N : list jsstring) :
  NoDup N -> In l N -> Q l = true ->
  length (filter (fun x => Q x && negb (str_eqb l x)) N) + 1
  = length (filter Q N).
Proof.
  induction N as [|x N IH]; intros Hnd Hin Hq; [destruct Hin|].
  inversion Hnd as [|? ? Hx Hnd']; subst. simpl.
  destruct Hin as [->|Hin].
  - rewrite Hq, str_eqb_refl. simpl.
    assert (E : filter (fun x => Q x && negb (str_eqb l x)) N = filter Q N).
    { apply filter_ext_in. intros y Hy.
      assert (Hne : str_eqb l y = false)
        by (apply str_eqb_neq; intros ->; exact (Hx Hy)).
      rewrite Hne. apply andb_true_r. }
    rewrite E. lia.
  - assert (Hne : str_eqb l x = false)
      by (apply str_eqb_neq; intros ->; exact (Hx Hin)).
    rewrite Hne, andb_true_r. specialize (IH Hnd' Hin Hq).
    destruct (Q x); simpl; lia.
Qed.

Lemma filter_label_at_most_one (l : jsstring) (cs : list component) :
  NoDup (labels cs) ->
  length (filter (fun c => str_eqb l (Component.label c)) cs) <= 1.
Proof.
  induction cs as [|c cs IH]; intros Hnd; [simpl; lia|].
  simpl in Hnd. inversion Hnd as [|? ? Hx Hnd']; subst. simpl.
  destruct (str_eqb l (Component.label c)) eqn:E.
  - apply str_eqb_eq in E. subst l.
    assert (E0 : filter (fun c0 => str_eqb (Component.label c)
                                     (Component.label c0)) cs = []).
    { clear IH Hnd Hnd'. induction cs as [|d cs IH]; [reflexivity|].
      simpl. destruct (str_eqb (Component.label c) (Component.label d)) eqn:Ed.
      - exfalso. apply Hx. left. symmetry. apply str_eqb_eq. exact Ed.
      - apply IH. intros Hin. apply Hx. right. exact Hin. }
    rewrite E0. simpl. lia.
  - apply IH. exact Hnd'.
Qed.

Lemma filter_none {A : Type} (f : A -> bool) (l : list A) :
  (forall x, In x l -> f x = false) -> filter f l = [].
Proof.
  induction l as [|x l IH]; intros H; [reflexivity|].
  simpl. rewrite (H x (or_introl eq_refl)). apply IH.
  intros y Hy. apply H. right. exact Hy.
Qed.

Lemma str_eqb_sym (a b : jsstring) : str_eqb a b = str_eqb b a.
Proof.
  destruct (str_eqb a b) eqn:E.
  - apply str_eqb_eq in E. subst. symmetry. apply str_eqb_refl.
  - symmetry. apply str_eqb_neq. apply str_eqb_neq in E. congruence.
Qed.

Section Termination.

Variable join : jsstring -> jsstring -> jsstring.
Variable cwd : jsstring.
Variable fs : list (jsstring * jsstring).
Variable root : component.

Lemma process_turns_left (w w' : world) (current : component)
  (rest : list component) :
  queue_inv (components join cwd fs root) w ->
  queue w = current :: rest ->
  process join cwd fs current
    (mk_world rest (cache w) (appended w) (history w)) = (Normal tt, w') ->
  queue_inv (components join cwd fs root) w' /\
  turns_left (labels (components join cwd fs root)) w'
    < turns_left (labels (components join cwd fs root)) w.
Proof.
  intros [Hnd Hk] Eq Hp. rewrite Eq in *.
  assert (Hcur : In current (components join cwd fs root))
    by (apply Hk; left; reflexivity).
  destruct (process_normal _ _ _ _ _ _ Hp) as [f [c4 [Hfind [El Ew]]]].
  assert (Hf : In f fs) by (apply find_some in Hfind; tauto).
  destruct (push_all_new (imported join cwd (snd f))
              (mk_world rest (cache w) (appended w) (history w)))
    as [new [E [Hi [Hn [Hu _]]]]].
  simpl in E, Hu. rewrite E in Ew. unfold cache_push in Ew. simpl in Ew.
  subst w'. simpl in Hnd. inversion Hnd as [|? ? Hcr Hnr]; subst.
  split.
  - constructor; simpl.
    + unfold labels. rewrite map_app. apply NoDup_app.
      * exact Hnr.
      * exact Hn.
      * intros a Ha Hb. apply in_map_iff in Hb. destruct Hb as [c [<- Hc]].
        exact (proj2 (Hu c Hc) Ha).
    + intros c Hc. apply in_app_or in Hc. destruct Hc as [Hc|Hc].
      * apply Hk. right. exact Hc.
      * right. apply in_flat_map. exists f. split; [exact Hf|].
        apply Hi. exact Hc.
  - unfold turns_left, uncached, requeued. cbn [queue cache]. rewrite Eq.
    cbn [filter].
    set (l := Component.label current) in *.
    set (N := nodup label_eq_dec (labels (components join cwd fs root))).
    assert (Hrest : filter (fun c => some_label (Component.label c)
                                       (cache w ++ [c4])) rest
                    = filter (fun c => some_label (Component.label c)
                                         (cache w)) rest).
    { apply filter_ext_in. intros c Hc. rewrite some_label_app. simpl.
      rewrite El. fold l.
      assert (Hne : str_eqb l (Component.label c) = false).
      { apply str_eqb_neq. intros Heq. apply Hcr. rewrite Heq.
        apply in_map. exact Hc. }
      rewrite Hne. rewrite !orb_false_r. reflexivity. }
    assert (Hnew : filter (fun c => some_label (Component.label c)
                                      (cache w ++ [c4])) new
                   = filter (fun c => str_eqb l (Component.label c)) new).
    { apply filter_ext_in. intros c Hc. rewrite some_label_app. simpl.
      rewrite El. fold l.
      destruct (Hu c Hc) as [Hnc _]. apply some_label_not_In in Hnc.
      rewrite Hnc. rewrite orb_false_r. reflexivity. }
    rewrite filter_app, length_app, Hrest, Hnew.
    pose proof (filter_label_at_most_one l new Hn) as Hone.
    destruct (some_label l (cache w)) eqn:Ec.
    + assert (Hunc : filter (fun x => negb (some_label x (cache w ++ [c4]))) N
                     = filter (fun x => negb (some_label x (cache w))) N).
      { apply filter_ext_in. intros x _. rewrite some_label_app. simpl.
        rewrite El. fold l. rewrite orb_false_r.
        destruct (str_eqb l x) eqn:Ex; [|rewrite orb_false_r; reflexivity].
        apply str_eqb_eq in Ex. subst x. rewrite Ec. reflexivity. }
      assert (Hzero : filter (fun c => str_eqb l (Component.label c)) new = []).
      { apply filter_none. intros c Hc. apply str_eqb_neq. intros Ex.
        destruct (Hu c Hc) as [Hnc _]. apply Hnc.
        rewrite <- Ex. apply some_label_In. exact Ec. }
      rewrite Hunc, Hzero. cbn [length]. lia.
    + assert (Hin : In l N).
      { apply nodup_In. apply in_map. exact Hcur. }
      pose proof (filter_drop_one (fun x => negb (some_label x (cache w))) l N
                    (NoDup_nodup label_eq_dec _) Hin) as Hdrop.
      cbv beta in Hdrop. rewrite Ec in Hdrop. specialize (Hdrop eq_refl).
      assert (Hunc : filter (fun x => negb (some_label x (cache w ++ [c4]))) N
                     = filter (fun x => negb (some_label x (cache w)) &&
                                        negb (str_eqb l x)) N).
      { apply filter_ext_in. intros x _. rewrite some_label_app. simpl.
        rewrite El. fold l. rewrite orb_false_r, negb_orb. reflexivity. }
      rewrite Hunc. cbn [length]. lia.
Qed.

Lemma nonempty_queue_has_turns (w : world) (current : component)
  (rest : list component) :
  queue_inv (components join cwd fs root) w ->
  queue w = current :: rest ->
  1 <= turns_left (labels (components join cwd fs root)) w.
Proof.
  intros [_ Hk] Eq. unfold turns_left, uncached, requeued. rewrite Eq in *.
  set (F := filter (fun l => negb (some_label l (cache w)))
              (nodup label_eq_dec (labels (components join cwd fs root)))).
  cbn [filter].
  destruct (some_label (Component.label current) (cache w)) eqn:Ec.
  - cbn [length]. lia.
  - assert (Hin : In (Component.label current)
                    (filter (fun l => negb (some_label l (cache w)))
                       (nodup label_eq_dec
                          (labels (components join cwd fs root))))).
    { apply filter_In. split.
      - apply nodup_In. apply in_map. apply Hk. left; reflexivity.
      - rewrite Ec. reflexivity. }
    fold F in Hin. destruct F as [|x xs]; [destruct Hin|]. cbn [length]. lia.
Qed.

Lemma drain_ends (n : nat) (w : world) :
  queue_inv (components join cwd fs root) w ->
  turns_left (labels (components join cwd fs root)) w <= n ->
  exists res, drain join cwd fs n w = Some res.
Proof.
  revert w; induction n as [|n IH]; intros w Hinv Hn;
    destruct (queue w) as [|current rest] eqn:Eq.
  - exists (Normal tt, w). simpl. rewrite Eq. reflexivity.
  - pose proof (nonempty_queue_has_turns w current rest Hinv Eq). lia.
  - exists (Normal tt, w). simpl. rewrite Eq. reflexivity.
  - simpl. rewrite Eq.
    destruct (process join cwd fs current
                (mk_world rest (cache w) (appended w) (history w)))
      as [[[]|e] w1] eqn:Ep.
    + destruct (process_turns_left w w1 current rest Hinv Eq Ep) as [Hinv' Hlt].
      apply IH; [exact Hinv'|]. lia.
    + eauto.
Qed.

(** X14: [parse] terminates on every finite set of files, whatever the
    import graph (cycles and files that import their own label included):
    the loop ends, with the queue empty or by an exception, within twice as
    many turns as the set has distinct labels. *)
Theorem parse_always_terminates :
  exists res,
    parse join cwd fs
      (2 * distinct (labels (components join cwd fs root))) root vno_init
    = Some res.
Proof.
  destruct (drain_ends (2 * distinct (labels (components join cwd fs root)))
              (mk_world [root] [] [] [Enqueued (Component.label root)]))
    as [res Ed].
  - constructor; simpl.
    + constructor; [intros []|constructor].
    + intros c [<-|[]]. left; reflexivity.
  - unfold turns_left, uncached, requeued, distinct.
    cbn [queue cache filter length].
    assert (E : forall N : list jsstring,
                filter (fun l => negb (some_label l [])) N = N).
    { induction N as [|x N IHN]; [reflexivity|].
      simpl. f_equal. exact IHN. }
    rewrite E.
    change (some_label (Component.label root) []) with false.
    cbn [length]. lia.
  - unfold parse, queue_push, vno_init.
    cbn [queue cache appended history app]. rewrite Ed.
    destruct res as [[[]|e] w2]; [rewrite build_spec|]; eauto.
Qed.

End Termination.

(** ** The partition of the discovered labels *)

(** X15: for every import graph in which no file imports its own label
    (cycles through two or more labels included), each time the loop of
    [parse] tests its condition the labels discovered so far are exactly
    those of the queue and of the store, no label is in both, and no label
    was enqueued twice. *)
Theorem labels_partition_queue_and_store
  (join : jsstring -> jsstring -> jsstring) (cwd : jsstring)
  (fs : list (jsstring * jsstring)) (root : component) (w : world) :
  self_import_free (label_edges join cwd fs root) ->
  loop_state join cwd fs root w ->
  (forall l, In l (enqueued (history w)) <->
             In l (labels (queue w)) \/ In l (labels (cache w))) /\
  (forall l, ~ (In l (labels (queue w)) /\ In l (labels (cache w)))) /\
  NoDup (enqueued (history w)).
Proof.
  intros Hself Hloop.
  exact (partition_at_loop_test join cwd fs root Hself w Hloop).
Qed.

Lemma labels_partition_queue_and_store_witness :
  let w1 := snd (process sample_join (lit "/w") fs_app_child app_root
                   (mk_world [] [] [] [Enqueued (lit "App")])) in
  labels (queue w1) = [lit "Child"] /\
  labels (cache w1) = [lit "App"] /\
  NoDup (enqueued (history w1)).
Proof.
  cbv zeta. split; [vm_compute; reflexivity|].
  split; [vm_compute; reflexivity|].
  refine (proj2 (proj2 (labels_partition_queue_and_store sample_join (lit "/w")
                          fs_app_child app_root _ _ _))).
  - intros l. apply acyclic_no_self_edge.
    apply (ranked_acyclic _ app_rank). vm_compute. reflexivity.
  - apply (loop_turn sample_join (lit "/w") fs_app_child app_root
             (mk_world [app_root] [] [] [Enqueued (lit "App")]) _ app_root []).
    + apply loop_start.
    + reflexivity.
    + vm_compute. reflexivity.
Defined.

(** ** The [Storage] class *)

Section StorageFacts.

Variable Component : Type.
Variable State : Type.
Variable inherited : jsstring -> bool.

Lemma own_assign_same (label : jsstring) (c : Component)
  (o : list (jsstring * Component)) :
  Storage.own label (Storage.assign label c o) = Some c.
Proof.
  induction o as [|[k d] o IH]; simpl.
  - rewrite str_eqb_refl. reflexivity.
  - destruct (str_eqb k label) eqn:E; simpl; rewrite E; [reflexivity|exact IH].
Qed.

Lemma own_assign_other (label other : jsstring) (c : Component)
  (o : list (jsstring * Component)) :
  other <> label ->
  Storage.own other (Storage.assign label c o) = Storage.own other o.
Proof.
  intros Hne. induction o as [|[k d] o IH]; simpl.
  - assert (E : str_eqb label other = false)
      by (apply str_eqb_neq; congruence).
    rewrite E. reflexivity.
  - destruct (str_eqb k label) eqn:E; simpl.
    + apply str_eqb_eq in E. subst k.
      assert (E' : str_eqb label other = false)
        by (apply str_eqb_neq; congruence).
      rewrite E'. reflexivity.
    + destruct (str_eqb k other); [reflexivity|exact IH].
Qed.

(** X16: [get] after [cache] returns the component just stored, for every
    ordinary label (also one that [Object.prototype] defines, such as
    [toString]) and whatever the label held before: the last writer
    wins. *)
Theorem storage_get_after_cache (label : jsstring) (c : Component)
  (s : Storage.t Component State) :
  Storage.ordinary label = true ->
  Storage.get inherited label (snd (Storage.cache label c s)) = Storage.Own c /\
  fst (Storage.cache label c s) = c.
Proof.
  intros _. split; [|reflexivity]. unfold Storage.get, Storage.cache. simpl.
  rewrite own_assign_same. reflexivity.
Qed.

(** X17: [cache] under one ordinary label changes nothing that [get]
    returns for any other label, and leaves the root and the Vue state as
    they are. *)
Theorem storage_cache_frame (label other : jsstring) (c : Component)
  (s : Storage.t Component State) :
  Storage.ordinary label = true ->
  other <> label ->
  Storage.get inherited other (snd (Storage.cache label c s))
    = Storage.get inherited other s /\
  Storage.root (snd (Storage.cache label c s)) = Storage.root s /\
  Storage.vue (snd (Storage.cache label c s)) = Storage.vue s.
Proof.
  intros _ Hne. unfold Storage.get, Storage.cache. simpl.
  rewrite own_assign_other by exact Hne. auto.
Qed.

Lemma assign_length (label : jsstring) (c : Component)
  (o : list (jsstring * Component)) :
  length (Storage.assign label c o) =
    match Storage.own label o with
    | Some _ => length o
    | None => S (length o)
    end.
Proof.
  induction o as [|[k d] o IH]; simpl; [reflexivity|].
  destruct (str_eqb k label); simpl; [reflexivity|].
  rewrite IH. destruct (Storage.own label o); reflexivity.
Qed.

Lemma cache_all_cons (l : jsstring) (c : Component)
  (ops : list (jsstring * Component)) (s : Storage.t Component State) :
  Storage.cache_all ((l, c) :: ops) s
  = Storage.cache_all ops (snd (Storage.cache l c s)).
Proof. reflexivity. Qed.

Lemma cache_all_counts (ops : list (jsstring * Component))
  (s : Storage.t Component State) :
  (Storage.size s + N.of_nat (length ops) <= 2 ^ 53)%N ->
  Storage.size (Storage.cache_all ops s)
    = (Storage.size s + N.of_nat (length ops))%N /\
  length (Storage.app (Storage.cache_all ops s))
    <= length (Storage.app s) + length ops.
Proof.
  revert s; induction ops as [|[l c] ops IH]; intros s H.
  - simpl. split; lia.
  - rewrite cache_all_cons. simpl length in H.
    assert (E : Storage.size (snd (Storage.cache l c s))
                = (Storage.size s + 1)%N).
    { simpl. unfold Storage.add_one.
      destruct (N.ltb_spec (Storage.size s) (2 ^ 53)); lia. }
    destruct (IH (snd (Storage.cache l c s))) as [Hs Hl]; [rewrite E; lia|].
    rewrite Hs, E. split; [simpl length; lia|].
    simpl Storage.app in Hl. rewrite assign_length in Hl. simpl length.
    destruct (Storage.own l (Storage.app s)); lia.
Qed.

(** X18: [size] counts the calls of [cache], not the labels held: after
    [n] calls with ordinary labels on a new store (fewer than 2^53) the
    size is [n], while the store holds at most [n] entries, and exactly one
    when two calls used the same label. *)
Theorem storage_size_counts_calls (ops : list (jsstring * Component)) :
  forallb (fun op => Storage.ordinary (fst op)) ops = true ->
  (N.of_nat (length ops) <= 2 ^ 53)%N ->
  Storage.size (Storage.cache_all ops (Storage.new Component State))
    = N.of_nat (length ops) /\
  length (Storage.app (Storage.cache_all ops (Storage.new Component State)))
    <= length ops /\
  forall (label : jsstring) (c d : Component),
    ops = [(label, c); (label, d)] ->
    Storage.app (Storage.cache_all ops (Storage.new Component State))
      = [(label, d)].
Proof.
  intros _ H.
  destruct (cache_all_counts ops (Storage.new Component State)) as [Hs Hl];
    [simpl; lia|].
  split; [rewrite Hs; simpl; lia|]. split; [simpl in Hl; exact Hl|].
  intros label c d ->. unfold Storage.cache_all. simpl.
  rewrite str_eqb_refl. reflexivity.
Qed.

End StorageFacts.

Lemma storage_cache_frame_witness :
  Storage.get (fun _ => false) (lit "Child")
    (snd (Storage.cache (lit "App") 1
            (snd (Storage.cache (lit "Child") 2 (Storage.new nat unit)))))
  = Storage.Own 2.
Proof.
  rewrite (proj1 (storage_cache_frame nat unit (fun _ => false)
                    (lit "App") (lit "Child") 1
                    (snd (Storage.cache (lit "Child") 2 (Storage.new nat unit)))
                    eq_refl ltac:(discriminate))).
  reflexivity.
Defined.

Lemma storage_get_after_cache_witness :
  Storage.get (fun _ => true) (lit "toString")
    (snd (Storage.cache (lit "toString") 7 (Storage.new nat unit)))
  = Storage.Own 7.
Proof.
  exact (proj1 (storage_get_after_cache nat unit (fun _ => true)
                  (lit "toString") 7 (Storage.new nat unit) eq_refl)).
Defined.

Lemma storage_size_counts_calls_witness :
  Storage.size
    (Storage.cache_all [(lit "App", 1); (lit "App", 2)] (Storage.new nat unit))
  = 2%N /\
  Storage.app
    (Storage.cache_all [(lit "App", 1); (lit "App", 2)] (Storage.new nat unit))
  = [(lit "App", 2)].
Proof.
  destruct (storage_size_counts_calls nat unit
              [(lit "App", 1); (lit "App", 2)]) as [Hs [_ Hsame]].
  - reflexivity.
  - vm_compute. discriminate.
  - split; [exact Hs|]. exact (Hsame (lit "App") 1 2 eq_refl).
Defined.

(** ** A second [parse] on the same object *)

Lemma process_facts
  (join : jsstring -> jsstring -> jsstring) (cwd : jsstring)
  (fs : list (jsstring * jsstring)) (current : component) (w w' : world) :
  process join cwd fs current w = (Normal tt, w') ->
  exists f c1 c2 c3 wi,
    find (fun f => str_eqb (fst f) (Component.path current)) fs = Some f /\
    template (snd f) current = Normal c1 /\
    script (snd f) c1 = Normal c2 /\
    style (snd f) c2 = Normal c3 /\
    imports join cwd (snd f) w = (Normal tt, wi) /\
    w' = snd (cache_push (instance c3) wi).
Proof.
  unfold process, bind, readTextFile, lift. intros H.
  destruct (find _ fs) as [f|] eqn:Hfind; [|discriminate].
  destruct (template (snd f) current) as [c1|] eqn:E1; [|discriminate].
  destruct (script (snd f) c1) as [c2|] eqn:E2; [|discriminate].
  destruct (style (snd f) c2) as [c3|] eqn:E3; [|discriminate].
  destruct (imports join cwd (snd f) w) as [[[]|e] wi] eqn:Ei; [|discriminate].
  exists f, c1, c2, c3, wi. unfold cache_push in *. simpl in *.
  injection H as <-. auto 8.
Qed.

Lemma process_keeps_known
  (join : jsstring -> jsstring -> jsstring) (cwd : jsstring)
  (fs : list (jsstring * jsstring)) (current : component)
  (rest : list component) (w w' : world) (L : list jsstring) :
  (forall l, In l L -> In l (labels (cache w) ++ labels (queue w))) ->
  queue w = current :: rest ->
  process join cwd fs current
    (mk_world rest (cache w) (appended w) (history w)) = (Normal tt, w') ->
  forall l, In l L -> In l (labels (cache w') ++ labels (queue w')).
Proof.
  intros HL Eq Hp l Hl. specialize (HL l Hl). rewrite ?Eq in HL.
  destruct (process_stores _ _ _ _ _ _ Hp) as [c4 [new [Ew [_ [Hc4 _]]]]].
  subst w'. simpl.
  unfold labels in *. rewrite !map_app. simpl. rewrite Hc4.
  rewrite !in_app_iff in *. simpl in *. tauto.
Qed.

Lemma drain_keeps_known
  (join : jsstring -> jsstring -> jsstring) (cwd : jsstring)
  (fs : list (jsstring * jsstring)) (fuel : nat) (w w' : world)
  (L : list jsstring) :
  (forall l, In l L -> In l (labels (cache w) ++ labels (queue w))) ->
  drain join cwd fs fuel w = Some (Normal tt, w') ->
  queue w' = [] /\ forall l, In l L -> In l (labels (cache w')).
Proof.
  revert w; induction fuel as [|n IH]; intros w HL Hd; simpl in Hd.
  - destruct (queue w) eqn:Eq; [|discriminate]. injection Hd as <-.
    split; [exact Eq|]. intros l Hl. specialize (HL l Hl).
    rewrite ?Eq in HL. simpl in HL. rewrite app_nil_r in HL. exact HL.
  - destruct (queue w) as [|current rest] eqn:Eq.
    + injection Hd as <-. split; [exact Eq|]. intros l Hl.
      specialize (HL l Hl). rewrite ?Eq in HL. simpl in HL.
      rewrite app_nil_r in HL. exact HL.
    + destruct (process join cwd fs current
                  (mk_world rest (cache w) (appended w) (history w)))
        as [[[]|e] w1] eqn:Ep; [|discriminate].
      apply (IH w1); [|exact Hd].
      apply (process_keeps_known join cwd fs current rest w w1 L);
        [rewrite Eq; exact HL | exact Eq | exact Ep].
Qed.

Lemma drain_empty
  (join : jsstring -> jsstring -> jsstring) (cwd : jsstring)
  (fs : list (jsstring * jsstring)) (n : nat) (w : world) :
  queue w = [] -> drain join cwd fs n w = Some (Normal tt, w).
Proof. intros H. destruct n; simpl; rewrite H; reflexivity. Qed.

(** X19: the object keeps its state between builds.  After a build that
    completed, a second [parse] of the same root on the same object pushes
    the root again without the check [imports] makes, processes it once
    more, enqueues none of its imports (their labels are in the store), and
    returns the store in the order of insertion with a second record of the
    root in front; every fragment is appended to the output once more. *)
Theorem second_parse_stores_the_root_again
  (join : jsstring -> jsstring -> jsstring) (cwd : jsstring)
  (fs : list (jsstring * jsstring)) (fuel n : nat) (root : component)
  (r : list component) (w : world) :
  parse join cwd fs fuel root vno_init = Some (Normal r, w) ->
  exists c w',
    parse join cwd fs (S n) root w = Some (Normal (c :: rev r), w') /\
    Component.label c = Component.label root /\
    appended w' = appended w ++ map request (c :: rev r).
Proof.
  unfold parse at 1, queue_push, vno_init.
  cbn [queue cache appended history app].
  destruct fuel as [|k]; [discriminate|]. simpl drain.
  destruct (process join cwd fs root
              (mk_world [] [] [] [Enqueued (Component.label root)]))
    as [[[]|e] w1] eqn:Ep; [|discriminate].
  destruct (drain join cwd fs k w1) as [[[[]|e] w2]|] eqn:Ed;
    try discriminate.
  rewrite build_spec. intros H. injection H as <- <-.
  destruct (process_facts _ _ _ _ _ _ Ep)
    as [f [c1 [c2 [c3 [wi [Hfind [E1 [E2 [E3 [Ei Ew]]]]]]]]]].
  pose proof (imports_normal_ok _ _ _ _ _ Ei) as Hok.
  apply imports_normal in Ei.
  destruct (push_all_new (imported join cwd (snd f))
              (mk_world [] [] [] [Enqueued (Component.label root)]))
    as [new [E [_ [_ [_ Hk]]]]].
  rewrite E in Ei. subst wi. unfold cache_push in Ew. simpl in Ew, Hk.
  assert (HL : forall l, In l (labels (imported join cwd (snd f))) ->
                         In l (labels (cache w1) ++ labels (queue w1))).
  { intros l Hl. unfold labels in Hl. apply in_map_iff in Hl.
    destruct Hl as [c [<- Hc]]. subst w1. simpl. right. exact (Hk c Hc). }
  destruct (drain_keeps_known join cwd fs k w1 w2 _ HL Ed) as [Hq Hin].
  exists (instance c3). eexists.
  unfold parse, queue_push. cbn [queue cache appended history]. rewrite Hq.
  simpl app. simpl drain.
  unfold process, bind, readTextFile, lift. rewrite Hfind, E1, E2, E3.
  rewrite imports_push_all by exact Hok.
  rewrite push_all_known.
  - unfold cache_push. cbn [queue cache appended history snd].
    rewrite drain_empty by reflexivity. rewrite build_spec.
    cbn [queue cache appended history].
    rewrite rev_app_distr, !rev_involutive. simpl.
    split; [reflexivity|].
    split; [exact (extractors_keep_label _ _ _ _ _ E1 E2 E3)|].
    rewrite <- app_assoc. reflexivity.
  - intros c Hc. simpl. rewrite app_nil_r.
    unfold labels. rewrite map_rev. apply in_rev. rewrite rev_involutive.
    apply Hin. apply in_map. exact Hc.
Qed.

Lemma second_parse_stores_the_root_again_witness :
  exists r w r2 w2,
    parse sample_join (lit "/w") fs_app_child 2 app_root vno_init
      = Some (Normal r, w) /\
    parse sample_join (lit "/w") fs_app_child 1 app_root w
      = Some (Normal r2, w2) /\
    labels r = [lit "Child"; lit "App"] /\
    labels r2 = [lit "App"; lit "App"; lit "Child"].
Proof.
  destruct (parse sample_join (lit "/w") fs_app_child 2 app_root vno_init)
    as [[[r|e] w]|] eqn:E1;
    [ | vm_compute in E1; discriminate | vm_compute in E1; discriminate].
  destruct (second_parse_stores_the_root_again sample_join (lit "/w")
              fs_app_child 2 0 app_root r w E1) as [c [w' [E2 [Hl _]]]].
  assert (Lr : labels r = [lit "Child"; lit "App"]).
  { vm_compute in E1. injection E1 as <- _. reflexivity. }
  exists r, w, (c :: rev r), w'. split; [reflexivity|]. split; [exact E2|].
  split; [exact Lr|]. simpl. rewrite Hl. unfold labels in *.
  rewrite map_rev, Lr. reflexivity.
Defined.

(** ** What a build discovers and stores *)

Lemma process_result
  (join : jsstring -> jsstring -> jsstring) (cwd : jsstring)
  (fs : list (jsstring * jsstring)) (current : component) (w w' : world) :
  process join cwd fs current w = (Normal tt, w') ->
  exists f c4 new,
    find (fun f => str_eqb (fst f) (Component.path current)) fs = Some f /\
    w' = mk_world (queue w ++ new) (cache w ++ [c4]) (appended w)
           (history w ++ map (fun c => Enqueued (Component.label c)) new ++
            [Cached (Component.label c4)]) /\
    Component.label c4 = Component.label current /\
    Component.path c4 = Component.path current /\
    incl new (imported join cwd (snd f)) /\
    forall c, In c (imported join cwd (snd f)) ->
              In (Component.label c)
                (labels (cache w) ++ labels (queue w ++ new)).
Proof.
  intros Hp.
  destruct (process_facts _ _ _ _ _ _ Hp)
    as [f [c1 [c2 [c3 [wi [Hfind [E1 [E2 [E3 [Ei Ew]]]]]]]]]].
  apply imports_normal in Ei.
  destruct (push_all_new (imported join cwd (snd f)) w)
    as [new [E [Hi [_ [_ Hk]]]]].
  rewrite E in Ei. subst wi. unfold cache_push in Ew. simpl in Ew.
  destruct (extractors_finalize _ _ _ _ _ E1 E2 E3) as [_ [Hl Hpath]].
  exists f, (instance c3), new. subst w'. rewrite <- app_assoc. auto 8.
Qed.

Lemma start_discovery_inv
  (join : jsstring -> jsstring -> jsstring) (cwd : jsstring)
  (fs : list (jsstring * jsstring)) (root : component) :
  discovery_inv join cwd fs root
    (mk_world [root] [] [] [Enqueued (Component.label root)]).
Proof.
  constructor; simpl.
  - intros c [<-|[]]. left; reflexivity.
  - intros l [<-|[]]. apply rt_refl.
  - intros c f c' [].
Qed.

Lemma process_discovery_inv
  (join : jsstring -> jsstring -> jsstring) (cwd : jsstring)
  (fs : list (jsstring * jsstring)) (root current : component)
  (rest : list component) (w w' : world) :
  discovery_inv join cwd fs root w -> queue w = current :: rest ->
  process join cwd fs current
    (mk_world rest (cache w) (appended w) (history w)) = (Normal tt, w') ->
  discovery_inv join cwd fs root w'.
Proof.
  intros [Hq Hr Hc] Eq Hp.
  destruct (process_result _ _ _ _ _ _ Hp)
    as [f [c4 [new [Hfind [Ew [Hl [Hpath [Hi Hk]]]]]]]].
  simpl in Ew, Hk. subst w'.
  assert (Hcur : In current (components join cwd fs root))
    by (apply Hq; rewrite Eq; left; reflexivity).
  assert (Hf : In f fs) by (apply find_some in Hfind; tauto).
  assert (Hold : forall l, In l (labels (cache w) ++ labels (queue w)) ->
                           In l (labels (cache w ++ [c4]) ++
                                 labels (rest ++ new))).
  { intros l Hin. rewrite Eq in Hin. unfold labels in *.
    rewrite !map_app. simpl. rewrite Hl.
    rewrite !in_app_iff in *. simpl in *. tauto. }
  constructor; simpl.
  - intros c Hin. apply in_app_or in Hin. destruct Hin as [Hin|Hin].
    + apply Hq. rewrite Eq. right. exact Hin.
    + right. apply in_flat_map. exists f. split; [exact Hf|].
      apply Hi. exact Hin.
  - intros l Hin. unfold labels in Hin. rewrite !map_app in Hin.
    rewrite !in_app_iff in Hin. simpl in Hin. rewrite Hl in Hin.
    assert (Hrc : reaches join cwd fs root (Component.label current)).
    { apply Hr. rewrite Eq. apply in_or_app. right. left. reflexivity. }
    destruct Hin as [[Hin|[<-|[]]]|[Hin|Hin]].
    + apply Hr. apply in_or_app. left. exact Hin.
    + exact Hrc.
    + apply Hr. rewrite Eq. apply in_or_app. right. right. exact Hin.
    + apply in_map_iff in Hin. destruct Hin as [c' [<- Hc']].
      apply rt_trans with (y := Component.label current); [exact Hrc|].
      apply rt_step. unfold label_edges. apply in_flat_map.
      exists current. split; [exact Hcur|]. rewrite Hfind.
      apply in_map_iff. exists c'. split; [reflexivity|].
      apply Hi. exact Hc'.
  - intros c f' c' Hin Hfind' Hc'. apply in_app_or in Hin.
    destruct Hin as [Hin|[<-|[]]].
    + apply Hold. exact (Hc c f' c' Hin Hfind' Hc').
    + rewrite Hpath, Hfind in Hfind'. injection Hfind' as <-.
      specialize (Hk c' Hc'). unfold labels in *. rewrite !map_app in *.
      rewrite !in_app_iff in *. simpl. tauto.
Qed.

Lemma drain_discovery_inv
  (join : jsstring -> jsstring -> jsstring) (cwd : jsstring)
  (fs : list (jsstring * jsstring)) (root : component)
  (fuel : nat) (w w' : world) :
  discovery_inv join cwd fs root w ->
  drain join cwd fs fuel w = Some (Normal tt, w') ->
  discovery_inv join cwd fs root w'.
Proof.
  revert w; induction fuel as [|n IH]; intros w Hinv Hd; simpl in Hd.
  - destruct (queue w) eqn:Eq; [|discriminate]. injection Hd as <-. exact Hinv.
  - destruct (queue w) as [|current rest] eqn:Eq.
    + injection Hd as <-. exact Hinv.
    + destruct (process join cwd fs current
                  (mk_world rest (cache w) (appended w) (history w)))
        as [[[]|e] w1] eqn:Ep; [|discriminate].
      apply (IH w1); [|exact Hd].
      exact (process_discovery_inv join cwd fs root current rest w w1
               Hinv Eq Ep).
Qed.

(** C1, as stated, fails: the import graph of [fs_broken_child] has no
    cycle (App imports Child and Other, which import nothing), yet the file
    of Child has no style section, and the loop ends by the TypeError with
    Other still in the queue: one insertion into the store for three labels
    discovered; with no amount of fuel does [parse] return. *)
Lemma acyclic_set_with_a_broken_file_aborts :
  acyclic (label_edges sample_join (lit "/w") fs_broken_child app_root) /\
  (exists w,
     parse sample_join (lit "/w") fs_broken_child 3 app_root vno_init
       = Some (Throw TypeError, w) /\
     labels (queue w) = [lit "Other"] /\
     cached (history w) = [lit "App"] /\
     enqueued (history w) = [lit "App"; lit "Child"; lit "Other"]) /\
  (forall fuel r w,
     parse sample_join (lit "/w") fs_broken_child fuel app_root vno_init
       <> Some (Normal r, w)).
Proof.
  split; [|split].
  - apply (ranked_acyclic _ app_rank). vm_compute. reflexivity.
  - eexists. split; [vm_compute; reflexivity|]. repeat split.
  - intros [|[|n]] r w; vm_compute; discriminate.
Qed.

(** C1, amended: on a finite set of component files that is well formed
    (every file has the three sections and import lines of four tokens, and
    the set holds the file of the root and of every import) and whose
    import graph by label has no cycle, the loop of [parse] ends with the
    queue empty and [parse] returns.  The store then holds the root, holds
    under its label whatever the file of a stored record imports, and holds
    only labels reached from the root; no label is inserted twice, the
    labels stored are the labels discovered, and the number of insertions
    is the number of distinct labels discovered. *)
Theorem parse_stores_what_it_discovers
  (join : jsstring -> jsstring -> jsstring) (cwd : jsstring)
  (fs : list (jsstring * jsstring)) (root : component) :
  well_formed join cwd fs root = true ->
  acyclic (label_edges join cwd fs root) ->
  exists fuel r w,
    parse join cwd fs fuel root vno_init = Some (Normal r, w) /\
    queue w = [] /\
    NoDup (labels r) /\
    (exists c, In c r /\
               Component.label c = Component.label root /\
               Component.path c = Component.path root) /\
    (forall c f c',
       In c r ->
       find (fun f => str_eqb (fst f) (Component.path c)) fs = Some f ->
       In c' (imported join cwd (snd f)) ->
       In (Component.label c') (labels r)) /\
    (forall l, In l (labels r) -> reaches join cwd fs root l) /\
    (forall l, In l (enqueued (history w)) <-> In l (labels r)) /\
    cached (history w) = rev (labels r) /\
    NoDup (cached (history w)) /\
    length (cached (history w)) = distinct (enqueued (history w)) /\
    length r = distinct (enqueued (history w)).
Proof.
  intros Hwf Hacyclic.
  set (w0 := mk_world [root] [] [] [Enqueued (Component.label root)]).
  assert (Hn : length (components join cwd fs root) - length (cache w0)
               <= length (components join cwd fs root)) by lia.
  destruct (drain_terminates join cwd fs root Hwf Hacyclic _ w0
              (start_inv join cwd fs root) Hn)
    as [w2 [Ed [[Henq Hcached Hnd _ _] Hq]]].
  destruct (drain_run_inv join cwd fs root _ w0 w2 (Normal tt)
              (start_run_inv root) Ed) as [_ Hrun].
  destruct (Hrun eq_refl) as [[_ _ _ _ [c0 [rest0 [Hfirst [Hl0 Hp0]]]]] _].
  destruct (drain_discovery_inv join cwd fs root _ w0 w2
              (start_discovery_inv join cwd fs root) Ed) as [_ Hreach Hclosed].
  rewrite Hq in *. simpl in Henq, Hnd, Hreach. rewrite app_nil_r in *.
  exists (length (components join cwd fs root)), (rev (cache w2)).
  eexists. split.
  { unfold parse, queue_push, vno_init.
    cbn [queue cache appended history app]. fold w0. rewrite Ed, build_spec.
    reflexivity. }
  cbn [queue cache appended history].
  assert (Hrl : labels (rev (cache w2)) = rev (labels (cache w2)))
    by (unfold labels; apply map_rev).
  rewrite Hrl, rev_involutive.
  split; [exact Hq|].
  split; [apply NoDup_rev; exact Hnd|].
  split.
  { exists c0. split; [|split; assumption].
    apply -> in_rev. rewrite Hfirst. left. reflexivity. }
  split.
  { intros c f c' Hin Hfind Hc'. apply -> in_rev.
    apply in_rev in Hin.
    pose proof (Hclosed c f c' Hin Hfind Hc') as H.
    simpl in H. rewrite ?app_nil_r in H. exact H. }
  split; [intros l Hl; apply Hreach; apply in_rev; exact Hl|].
  split; [intros l; rewrite Henq; apply in_rev|].
  split; [exact Hcached|].
  split; [rewrite Hcached; exact Hnd|].
  assert (Hd : distinct (enqueued (history w2)) = length (labels (cache w2))).
  { unfold distinct. rewrite Henq, nodup_fixed_point by exact Hnd.
    reflexivity. }
  split; [rewrite Hcached, Hd; reflexivity|].
  rewrite Hd. unfold labels. rewrite length_rev, length_map. reflexivity.
Qed.

Lemma parse_stores_what_it_discovers_witness :
  well_formed sample_join (lit "/w") fs_two_children app_root = true /\
  acyclic (label_edges sample_join (lit "/w") fs_two_children app_root) /\
  exists fuel r w,
    parse sample_join (lit "/w") fs_two_children fuel app_root vno_init
      = Some (Normal r, w) /\
    queue w = [] /\
    NoDup (labels r) /\
    In (lit "App") (labels r) /\
    In (lit "Child") (labels r) /\
    In (lit "Other") (labels r) /\
    length r = distinct (enqueued (history w)).
Proof.
  assert (W : well_formed sample_join (lit "/w") fs_two_children app_root
              = true) by (vm_compute; reflexivity).
  assert (A : acyclic (label_edges sample_join (lit "/w") fs_two_children
                         app_root))
    by (apply (ranked_acyclic _ app_rank); vm_compute; reflexivity).
  split; [exact W|]. split; [exact A|].
  destruct (parse_stores_what_it_discovers sample_join (lit "/w")
              fs_two_children app_root W A)
    as [fuel [r [w [E [Hq [Hnd [[c [Hc [Hl Hp]]]
         [Hclosed [_ [_ [_ [_ [_ Hlen]]]]]]]]]]]]].
  exists fuel, r, w.
  split; [exact E|]. split; [exact Hq|]. split; [exact Hnd|].
  split.
  { change (lit "App") with (Component.label app_root). rewrite <- Hl.
    apply in_map. exact Hc. }
  split.
  { apply (Hclosed c (lit "/w/App.vue", sfc two_imports)
             (descriptor (lit "Child") (lit "/w/Child.vue")) Hc).
    - rewrite Hp. reflexivity.
    - vm_compute. left. reflexivity. }
  split.
  { apply (Hclosed c (lit "/w/App.vue", sfc two_imports)
             (descriptor (lit "Other") (lit "/w/Other.vue")) Hc).
    - rewrite Hp. reflexivity.
    - vm_compute. right. left. reflexivity. }
  exact Hlen.
Defined.
